(** * Codector engine: cache identity, analysis driver, query fan-out and
      result merge

    A shallow embedding of [src/codector/engine.py] and the properties of
    its orchestration logic.  Python objects that are shared and mutated in
    place (the result objects handed back by the search sources) live in an
    explicit object store; exceptions are explicit outcomes. *)

From stdpp Require Import gmap strings list pretty.
From Stdlib Require Import ZArith Lia Ascii.

#[local] Set Warnings "-clear-no-such-hyp".

Local Open Scope string_scope.
Local Open Scope list_scope.
Local Open Scope Z_scope.

(** ** Result objects and the object store *)

(** A search result, [{ path, payload }].  The class itself lives in
    [codector/result.py]; the engine only reads [path] and calls [extend]. *)
Record Result := mkResult { path : string; payload : list Z }.

Global Instance Result_eq_dec : EqDecision Result.
Proof. solve_decision. Defined.

(** Modelled from the spec: [Result.extend] (defined in [codector/result.py],
    which is not among the sources).  The merge operation "is an
    append/extend, not a replace": the receiver keeps its path and its
    payload is followed by the payload of the other result. *)
Definition extend (self other : Result) : Result :=
  {| path := path self; payload := payload self ++ payload other |}.

(** References to result objects, and the store they point into.  Objects
    are never freed; a new object takes the next free index. *)
Abbreviation loc := nat (only parsing).
Abbreviation store := (list Result) (only parsing).

(** The values a list of references currently denotes. *)
Definition deref (h : store) (rs : list loc) : list Result :=
  omap (λ r, h !! r) rs.

(** The path of the object behind a reference. *)
Definition path_at (h : store) (r : loc) : option string :=
  path <$> (h !! r).

(** ** [get_results] (lines 151-161): merging by path *)

(** [merged_results] is a Python [dict]: keys are paths, values are
    references, iteration order is insertion order.  A key is only ever
    inserted when it is absent, so new keys go to the end. *)
Abbreviation dict := (list (string * loc)) (only parsing).

Fixpoint dict_get (d : dict) (k : string) : option loc :=
  match d with
  | [] => None
  | (k', v) :: d' => if decide (k' = k) then Some v else dict_get d' k
  end.

Definition dict_values (d : dict) : list loc := d.*2.
Definition dict_keys (d : dict) : list string := d.*1.

(** One iteration of the loop of [get_results].  [None] stands for a
    dangling reference, which Python cannot produce. *)
Definition merge_step (h : store) (merged : dict) (r : loc)
  : option (store * dict) :=
  match h !! r with
  | None => None
  | Some result_item =>
      match dict_get merged (path result_item) with
      | None => Some (h, merged ++ [(path result_item, r)])
      | Some r0 =>
          match h !! r0 with
          | None => None
          | Some entry => Some (<[r0 := extend entry result_item]> h, merged)
          end
      end
  end.

Fixpoint merge_loop (h : store) (merged : dict) (results : list loc)
  : option (store * dict) :=
  match results with
  | [] => Some (h, merged)
  | r :: rest =>
      match merge_step h merged r with
      | None => None
      | Some (h', merged') => merge_loop h' merged' rest
      end
  end.

(** [get_results] on the store and the accumulated list [_results]: the new
    store and the list of entries, in insertion order of their keys. *)
Definition get_results (h : store) (_results : list loc)
  : option (store * list loc) :=
  match merge_loop h [] _results with
  | None => None
  | Some (h', merged) => Some (h', dict_values merged)
  end.

(** ** Floating point: [int(len(files) * 0.2)] (line 111) *)

(** A non-negative binary64 number is [m * 2^e] with [m < 2^53].  Here a
    number is kept as an integer numerator over a fixed power of two, and
    [round53] rounds such a numerator to 53 significant bits, to nearest
    with ties to even, as IEEE 754 multiplication and [float(int)] do. *)
Definition round53 (p : Z) : Z :=
  if p <? 2 ^ 53 then p
  else
    let s := Z.log2 p - 52 in
    let q := Z.shiftr p s in
    let r := Z.land p (Z.ones s) in
    let half := Z.shiftl 1 (s - 1) in
    let q' := if (half <? r) || ((half =? r) && Z.odd q) then q + 1 else q in
    Z.shiftl q' s.

(** The binary64 literal [0.2] is [3602879701896397 / 2^54]. *)
Definition float_0_2_num : Z := 3602879701896397.
Definition float_0_2_exp : Z := 54.

(** [n * 0.2] for a Python int [n >= 0]: [n] is converted to binary64, the
    exact product is rounded; the result is a numerator over [2^54]. *)
Definition times_0_2 (n : Z) : Z := round53 (round53 n * float_0_2_num).

(** [int(x)] truncates; for [x >= 0] this is the floor. *)
Definition int_of_float (x : Z) : Z := Z.shiftr x float_0_2_exp.

(** ** Chunks, files, sources *)

(** Modelled from the spec: [Chunk] and [File] (from [codector/file.py], not
    among the sources).  A chunk has a stable [chunk_id] and belongs to a
    file; a file enumerates a finite sequence of chunks. *)
Record Chunk := mkChunk { chunk_id : string; chunk_file : string; chunk_text : string }.
Record File := mkFile { file_path : string; get_chunks : list Chunk }.

Global Instance Chunk_eq_dec : EqDecision Chunk.
Proof. solve_decision. Defined.

(** What the engine does to its collaborators, in order. *)
Inductive event :=
| CacheChunk (src : nat) (chunk : Chunk)  (* [source["cache_chunk"](chunk)] on the [src]-th source *)
| CachePersist                            (* [self._cache.persist()] *)
| SourcePersist (src : nat).              (* [source["persist"]()] *)

Global Instance event_eq_dec : EqDecision event.
Proof. solve_decision. Defined.

(** A source is a mapping of named operations ([ripgrep.initialize] and
    [chroma.initialize] build them; neither module is among the sources).
    Its behaviour may depend on everything done to the sources so far (its
    index).  [cache_chunk] and [persist] either return ([true]) or raise
    ([false]); [fetch] returns fresh result objects or raises ([None]). *)
Module Source.
Record t := mk {
  cache_chunk : list event → Chunk → bool;
  fetch : list event → string → option (list Result);
  persist : list event → bool }.
End Source.

Record Fetchers := mkFetchers { async : list Source.t; sync : list Source.t }.

(** The chain of all the values of [self._fetchers]: the dict was built with
    the key ["async"] first. *)
Definition chain (f : Fetchers) : list Source.t := async f ++ sync f.

(** ** The cache record and the engine *)

Record RepositoryData := mkRepositoryData {
  last_analyzed_version_of_branch : gmap string string;
  required_commits : gset string;
  commits_already_analyzed : gset string;
  file_data : gmap string File;
  sorted_files : list string;
  chunks_already_analyzed : gset string }.

(** Modelled from the spec: [Repository.analyze_files] and
    [Repository.top_files] (from [codector/repository.py], not among the
    sources).  The repository "mutates/owns the commit-tracking fields of
    the cache record during its own walk"; a walk of the tree is an input of
    the run: the new values of the fields the repository owns and the ranked
    files [top_files()] returns afterwards. *)
Record Walk := mkWalk {
  walk_branches : gmap string string;
  walk_required_commits : gset string;
  walk_commits_analyzed : gset string;
  walk_file_data : gmap string File;
  walk_sorted_files : list string;
  walk_top_files : list File }.

Record Engine := mkEngine {
  engine_path : string;
  query_string : string;
  objects : store;                 (* the result objects alive in the process *)
  _results : list loc;
  _cache : RepositoryData;         (* [self._cache.data] *)
  cache_persist : list event → bool;   (* does [self._cache.persist()] return *)
  top_files : list File;           (* [self.repository.top_files()] *)
  _fetchers : Fetchers;
  trace : list event }.

Inductive exn :=
| CacheChunkRaised (src : nat) (chunk : Chunk)
| CachePersistRaised
| SourcePersistRaised (src : nat)
| FetchRaised (src : nat).

(** A method either returns or raises; the engine object survives both. *)
Inductive outcome :=
| Returned (e : Engine)
| Raised (e : Engine) (x : exn).

Definition state_of (o : outcome) : Engine :=
  match o with Returned e => e | Raised e _ => e end.

Definition bind (o : outcome) (k : Engine → outcome) : outcome :=
  match o with
  | Returned e => k e
  | Raised e x => Raised e x
  end.

Infix ">>>" := bind (at level 65, right associativity).

(** Field updates. *)
Definition set_trace (t : list event) (e : Engine) : Engine :=
  mkEngine (engine_path e) (query_string e) (objects e) (_results e) (_cache e)
           (cache_persist e) (top_files e) (_fetchers e) t.

Definition log_event (ev : event) (e : Engine) : Engine :=
  set_trace (trace e ++ [ev]) e.

Definition set_cache (d : RepositoryData) (e : Engine) : Engine :=
  mkEngine (engine_path e) (query_string e) (objects e) (_results e) d
           (cache_persist e) (top_files e) (_fetchers e) (trace e).

Definition set_top_files (fs : list File) (e : Engine) : Engine :=
  mkEngine (engine_path e) (query_string e) (objects e) (_results e) (_cache e)
           (cache_persist e) fs (_fetchers e) (trace e).

Definition set_results (h : store) (rs : list loc) (e : Engine) : Engine :=
  mkEngine (engine_path e) (query_string e) h rs (_cache e)
           (cache_persist e) (top_files e) (_fetchers e) (trace e).

Definition set_chunks (ids : gset string) (d : RepositoryData) : RepositoryData :=
  mkRepositoryData (last_analyzed_version_of_branch d) (required_commits d)
    (commits_already_analyzed d) (file_data d) (sorted_files d) ids.

(** The set of chunk ids recorded as analyzed. *)
Definition analyzed (e : Engine) : gset string :=
  chunks_already_analyzed (_cache e).

(** [self._cache.data["chunks_already_analyzed"].add(id)] *)
Definition mark_analyzed (id : string) (e : Engine) : Engine :=
  set_cache (set_chunks ({[ id ]} ∪ analyzed e) (_cache e)) e.

(** [self._results.extend(rs)]: the objects a source returned join the
    store, their references join the list. *)
Definition results_extend (rs : list Result) (e : Engine) : Engine :=
  set_results (objects e ++ rs)
              (_results e ++ seq (length (objects e)) (length rs)) e.

(** ** Analysis (lines 101-126) *)

Definition analyze_files (w : Walk) (e : Engine) : Engine :=
  set_top_files (walk_top_files w)
    (set_cache
       (mkRepositoryData (walk_branches w) (walk_required_commits w)
          (walk_commits_analyzed w) (walk_file_data w) (walk_sorted_files w)
          (analyzed e)) e).

(** The loop of [_add_to_collection], at the [i]-th source of the chain. *)
Fixpoint add_loop (i : nat) (sources : list Source.t) (chunk : Chunk)
    (e : Engine) : outcome :=
  match sources with
  | [] => Returned e
  | source :: rest =>
      let e' := log_event (CacheChunk i chunk) e in
      if Source.cache_chunk source (trace e) chunk
      then add_loop (S i) rest chunk e'
      else Raised e' (CacheChunkRaised i chunk)
  end.

Definition _add_to_collection (chunk : Chunk) (e : Engine) : outcome :=
  add_loop 0 (chain (_fetchers e)) chunk e.

Definition minimum_files_to_analyze (files : list File) : Z :=
  Z.max 40 (int_of_float (times_0_2 (Z.of_nat (length files)))).

(** [self.repository.top_files()[:minimum_files_to_analyze]] *)
Definition files_to_analyze (files : list File) : list File :=
  take (Z.to_nat (minimum_files_to_analyze files)) files.

Definition chunks_to_process (files : list File) : list Chunk :=
  concat (get_chunks <$> files_to_analyze files).

Fixpoint analyze_loop (chunks : list Chunk) (e : Engine) : outcome :=
  match chunks with
  | [] => Returned e
  | chunk :: rest =>
      if decide (chunk_id chunk ∈ analyzed e)
      then analyze_loop rest e
      else _add_to_collection chunk e >>>
           λ e', analyze_loop rest (mark_analyzed (chunk_id chunk) e')
  end.

Definition persist_cache (e : Engine) : outcome :=
  let e' := log_event CachePersist e in
  if cache_persist e (trace e) then Returned e' else Raised e' CachePersistRaised.

Fixpoint persist_loop (i : nat) (sources : list Source.t) (e : Engine) : outcome :=
  match sources with
  | [] => Returned e
  | source :: rest =>
      let e' := log_event (SourcePersist i) e in
      if Source.persist source (trace e)
      then persist_loop (S i) rest e'
      else Raised e' (SourcePersistRaised i)
  end.

Definition _create_vector_embeddings (e : Engine) : outcome :=
  analyze_loop (chunks_to_process (top_files e)) e >>>
  λ e1, persist_cache e1 >>>
  λ e2, persist_loop 0 (chain (_fetchers e2)) e2.

Definition analyze_codebase (w : Walk) (e : Engine) : outcome :=
  _create_vector_embeddings (analyze_files w e).

(** ** Querying (lines 128-149) *)

Definition query (q : string) (e : Engine) : Engine :=
  mkEngine (engine_path e) q (objects e) (_results e) (_cache e)
           (cache_persist e) (top_files e) (_fetchers e) (trace e).

(** The blocking sources, called inline one after the other; [i] is the
    position of the source in the chain. *)
Fixpoint fetch_sync_loop (i : nat) (sources : list Source.t) (e : Engine) : outcome :=
  match sources with
  | [] => Returned e
  | source :: rest =>
      match Source.fetch source (trace e) (query_string e) with
      | None => Raised e (FetchRaised i)
      | Some rs => fetch_sync_loop (S i) rest (results_extend rs e)
      end
  end.

(** Awaiting [asyncio.gather] on the tasks: the results of all tasks in task
    order, or the exception of a task that raised (the single worker runs
    the tasks in submission order, so the first one). *)
Fixpoint gather (i : nat) (tasks : list (option (list Result)))
  : list (list Result) + nat :=
  match tasks with
  | [] => inl []
  | None :: _ => inr i
  | Some rs :: rest =>
      match gather (S i) rest with
      | inl rss => inl (rs :: rss)
      | inr j => inr j
      end
  end.

Definition fetch (e : Engine) : outcome :=
  let e0 := set_results (objects e) [] e in
  let async_tasks :=
    (λ source, Source.fetch source (trace e0) (query_string e0))
      <$> async (_fetchers e0) in
  fetch_sync_loop (length (async (_fetchers e0))) (sync (_fetchers e0)) e0 >>>
  λ e1, match gather 0 async_tasks with
        | inr i => Raised e1 (FetchRaised i)
        | inl results => Returned (foldl (λ e' result, results_extend result e') e1 results)
        end.

Definition fetch_sync (e : Engine) : outcome := fetch e.

(** [get_results] as a method: the merge runs on the engine's store and
    list; the returned list holds references to the entries. *)
Definition Engine_get_results (e : Engine) : option (Engine * list loc) :=
  match get_results (objects e) (_results e) with
  | None => None
  | Some (h', out) => Some (set_results h' (_results e) e, out)
  end.

(** ** Construction *)

(** The record [Cache] starts from when nothing is stored on disk. *)
Definition empty_data : RepositoryData := mkRepositoryData ∅ ∅ ∅ ∅ [] ∅.

(** [__init__] (lines 49-77): the engine right after construction, given
    what [self._cache.load()] found and the sources the two [initialize]
    calls built.  ([_results_from_chromadb] is never read and is left
    out.) *)
Definition init (path : string) (loaded : RepositoryData)
    (cache_persist : list event → bool) (fetchers : Fetchers) : Engine :=
  mkEngine path "" [] [] loaded cache_persist [] fetchers [].

(** ** SHA-256 ([hashlib.sha256], FIPS 180-4) *)

Module SHA256.

Definition wrap (x : Z) : Z := Z.land x (Z.ones 32).
Definition add (x y : Z) : Z := wrap (x + y).
Definition rotr (n x : Z) : Z :=
  Z.lor (Z.shiftr x n) (wrap (Z.shiftl x (32 - n))).
Definition neg (x : Z) : Z := Z.lxor x (Z.ones 32).

Definition ch (x y z : Z) : Z := Z.lxor (Z.land x y) (Z.land (neg x) z).
Definition maj (x y z : Z) : Z :=
  Z.lxor (Z.lxor (Z.land x y) (Z.land x z)) (Z.land y z).
Definition bsig0 (x : Z) : Z := Z.lxor (Z.lxor (rotr 2 x) (rotr 13 x)) (rotr 22 x).
Definition bsig1 (x : Z) : Z := Z.lxor (Z.lxor (rotr 6 x) (rotr 11 x)) (rotr 25 x).
Definition ssig0 (x : Z) : Z := Z.lxor (Z.lxor (rotr 7 x) (rotr 18 x)) (Z.shiftr x 3).
Definition ssig1 (x : Z) : Z := Z.lxor (Z.lxor (rotr 17 x) (rotr 19 x)) (Z.shiftr x 10).

(** The first [n] primes, by trial division among the numbers below
    [bound]. *)
Definition is_prime (p : nat) : bool :=
  forallb (λ d, negb (p mod d =? 0)%nat) (seq 2 (p - 2)).

Definition primes (n bound : nat) : list Z :=
  Z.of_nat <$> take n (filter (λ p, is_prime p = true) (seq 2 bound)).

(** The integer cube root of a number below [2^108], one bit at a time. *)
Definition cube_root (x : Z) : Z :=
  foldl (λ r b, let r' := r + Z.shiftl 1 (Z.of_nat b) in
                if r' * r' * r' <=? x then r' else r)
        0 (reverse (seq 0 36)).

(** The round constants are the first 32 bits of the fractional parts of the
    cube roots of the first 64 primes, the initial hash value those of the
    square roots of the first 8 primes. *)
Definition round_constants : list Z :=
  Eval vm_compute in (λ p, wrap (cube_root (Z.shiftl p 96))) <$> primes 64 312.

Definition initial_hash : list Z :=
  Eval vm_compute in (λ p, wrap (Z.sqrt (Z.shiftl p 64))) <$> primes 8 20.

(** Big-endian bytes of a number, [n] of them. *)
Fixpoint be_bytes (n : nat) (x : Z) : list Z :=
  match n with
  | O => []
  | S n' => Z.land (Z.shiftr x (8 * Z.of_nat n')) 255 :: be_bytes n' x
  end.

Definition be_word (bs : list Z) : Z :=
  foldl (λ acc b, Z.lor (Z.shiftl acc 8) b) 0 bs.

(** The message, the byte [0x80], zero bytes up to 56 modulo 64, and the
    bit length on eight bytes. *)
Definition pad (msg : list Z) : list Z :=
  let len := Z.of_nat (length msg) in
  let zeros := Z.to_nat ((55 - len) mod 64) in
  msg ++ [0x80] ++ replicate zeros 0 ++ be_bytes 8 (8 * len).

(** Cutting a list into pieces of [k] elements. *)
Fixpoint pieces {A} (fuel k : nat) (l : list A) : list (list A) :=
  match fuel, l with
  | S fuel', _ :: _ => take k l :: pieces fuel' k (drop k l)
  | _, _ => []
  end.

Definition words_of_block (block : list Z) : list Z :=
  be_word <$> pieces 16 4 block.

(** The message schedule: [n] more words after those of [w]. *)
Fixpoint schedule (n : nat) (w : list Z) : list Z :=
  match n with
  | O => w
  | S n' =>
      let t := length w in
      let at_ (k : nat) := nth (t - k) w 0 in
      schedule n'
        (w ++ [add (add (ssig1 (at_ 2%nat)) (at_ 7%nat))
                   (add (ssig0 (at_ 15%nat)) (at_ 16%nat))])
  end.

Definition round (v : list Z) (kw : Z * Z) : list Z :=
  match v with
  | [a; b; c; d; e; f; g; h] =>
      let t1 := add (add (add h (bsig1 e)) (add (ch e f g) kw.1)) kw.2 in
      let t2 := add (bsig0 a) (maj a b c) in
      [add t1 t2; a; b; c; add d t1; e; f; g]
  | _ => v
  end.

Definition compress (hash : list Z) (block : list Z) : list Z :=
  let w := schedule 48 (words_of_block block) in
  let v := foldl round hash (zip round_constants w) in
  zip_with add hash v.

Definition digest_words (msg : list Z) : list Z :=
  let padded := pad msg in
  foldl compress initial_hash (pieces (length padded) 64 padded).

Definition hex_digit (x : Z) : ascii :=
  ascii_of_nat (Z.to_nat (if x <? 10 then 48 + x else 87 + x)).

Fixpoint hex (n : nat) (x : Z) : string :=
  match n with
  | O => ""
  | S n' => String (hex_digit (Z.land (Z.shiftr x (4 * Z.of_nat n')) 15)) (hex n' x)
  end.

Definition bytes_of_string (s : string) : list Z :=
  (λ c, Z.of_nat (nat_of_ascii c)) <$> String.list_ascii_of_string s.

(** [hashlib.sha256(s.encode()).hexdigest()]; a string is kept as the
    bytes of its UTF-8 encoding. *)
Definition hexdigest (s : string) : string :=
  foldr (λ w acc, hex 8 w +:+ acc) "" (digest_words (bytes_of_string s)).

End SHA256.

(** ** Project identity and cache location (lines 79-99) *)

Definition CACHE_FORMAT_VERSION : Z := 15.

(** A [pathlib.Path] as the list of its components. *)
Definition Path := list string.
Definition path_join (p : Path) (child : string) : Path := p ++ [child].

(** What the engine reads from the process and the file system. *)
Record Env := mkEnv {
  environ : gset string;                (* the names defined in [os.environ] *)
  user_cache_dir : string → Path;       (* [appdirs.user_cache_dir] *)
  resolve : string → string }.          (* [str(Path(p).expanduser().resolve())] *)

Definition newline : string := String (ascii_of_nat 10) "".

(** The f-string hashed by [_get_project_hash], for an engine whose module
    constant [CACHE_FORMAT_VERSION] is [version]. *)
Definition project_text (version : Z) (normalized_path : string) : string :=
  newline +:+ "        Cache version: " +:+ pretty version +:+
  newline +:+ "        Normalized path: " +:+ normalized_path +:+
  newline +:+ "        ".

Definition _get_project_hash (env : Env) (version : Z) (path : string) : string :=
  let normalized_path := resolve env path in
  SHA256.hexdigest (project_text version normalized_path).

Definition _get_cache_root (env : Env) : Path :=
  user_cache_dir env
    (if decide ("PYTEST_CURRENT_TEST" ∈ environ env)
     then "codector-pytest" else "codector").

Definition _get_cache_folder (env : Env) (version : Z) (path : string) : Path :=
  path_join (_get_cache_root env) (_get_project_hash env version path).

(** The file the engine hands to [Cache]: [_get_cache_folder() / "cache"]. *)
Definition cache_file (env : Env) (version : Z) (path : string) : Path :=
  path_join (_get_cache_folder env version path) "cache".


(** Arithmetic on literals is evaluated on demand only. *)
Global Arguments round53 : simpl never.
Global Arguments times_0_2 : simpl never.
Global Arguments int_of_float : simpl never.
Global Arguments minimum_files_to_analyze : simpl never.
Global Arguments files_to_analyze : simpl never.
Global Arguments chunks_to_process : simpl never.
Global Arguments SHA256.hexdigest : simpl never.

(** * Vocabulary of the statements *)

(** ** The merge as the specification words it *)

(** Paths in order of first appearance. *)
Fixpoint first_seen (ps : list string) : list string :=
  match ps with
  | [] => []
  | p :: ps' => p :: filter (λ q, q ≠ p) (first_seen ps')
  end.

(** All payloads recorded for path [p], in list order, one after another. *)
Definition payloads_of (p : string) (rs : list Result) : list Z :=
  concat (payload <$> filter (λ r, path r = p) rs).

(** One entry per distinct path, in first-seen order, carrying every payload
    recorded for that path. *)
Definition merged_by_path (rs : list Result) : list Result :=
  (λ p, mkResult p (payloads_of p rs)) <$> first_seen (path <$> rs).

(** The same, as a left-to-right accumulation over values. *)
Fixpoint merge_into (acc : list Result) (r : Result) : list Result :=
  match acc with
  | [] => [r]
  | e :: acc' =>
      if decide (path e = path r) then extend e r :: acc'
      else e :: merge_into acc' r
  end.

Definition merge_values (acc rs : list Result) : list Result :=
  foldl merge_into acc rs.

(** ** Invariants of the merge *)

(** The dictionary maps each key to a distinct object carrying that path. *)
Definition dict_ok (h : store) (m : dict) : Prop :=
  NoDup (dict_values m) ∧ ∀ k v, (k, v) ∈ m → path_at h v = Some k.

(** [r] is the first reference of [results] whose object has its path. *)
Definition first_with_path (h : store) (results : list loc) (r : loc) : Prop :=
  ∃ i, results !! i = Some r
       ∧ ∀ j r', (j < i)%nat → results !! j = Some r' → path_at h r' ≠ path_at h r.

(** The accumulated list holds distinct references to live objects. *)
Definition results_wf (e : Engine) : Prop :=
  NoDup (_results e) ∧ ∀ r, r ∈ _results e → (r < length (objects e))%nat.

(** ** Analysis *)

(** The calls [cache_chunk(chunk)] on the sources [i], [i+1], ... *)
Definition dispatches (chunk : Chunk) (i n : nat) : list event :=
  (λ j, CacheChunk j chunk) <$> seq i n.

(** The calls [persist()] on the sources [i], [i+1], ... *)
Definition persists (i n : nat) : list event := SourcePersist <$> seq i n.

Definition is_cache_chunk (ev : event) : bool :=
  match ev with CacheChunk _ _ => true | _ => false end.

(** The [cache_chunk] calls recorded in a trace. *)
Definition cache_chunk_calls (t : list event) : list event :=
  filter (λ ev, is_cache_chunk ev = true) t.

(** What an analysis pass may change: the set of analyzed ids grows and the
    trace is extended; the rest of the engine is as before. *)
Definition analysis_step (e e' : Engine) : Prop :=
  ∃ ids t,
    e' = set_trace (trace e ++ t)
           (set_cache (set_chunks (ids ∪ analyzed e) (_cache e)) e).

(** The window as the specification words it, with a ceiling:
    [max(40, ceil(0.2 * total))]. *)
Definition window_with_ceiling (total : Z) : Z := Z.max 40 ((total + 4) / 5).

(** ** Querying *)

(** What each source of a list answers to the pending query. *)
Definition responses (sources : list Source.t) (e : Engine)
  : list (option (list Result)) :=
  (λ source, Source.fetch source (trace e) (query_string e)) <$> sources.

(** The answers up to the first source that raised. *)
Fixpoint answered (rs : list (option (list Result))) : list (list Result) :=
  match rs with
  | Some r :: rs' => r :: answered rs'
  | _ => []
  end.

(** ** The methods of the engine *)

(** The methods of the engine, and the state a call leaves behind whether
    it returns or raises.  ([get_results] cannot meet a dangling reference;
    the model leaves the engine as it is there.) *)
Inductive method :=
| AnalyzeCodebase (w : Walk)
| CreateVectorEmbeddings
| AddToCollection (chunk : Chunk)
| Query (q : string)
| Fetch
| FetchSync
| GetResults.

Definition call (m : method) (e : Engine) : Engine :=
  match m with
  | AnalyzeCodebase w => state_of (analyze_codebase w e)
  | CreateVectorEmbeddings => state_of (_create_vector_embeddings e)
  | AddToCollection chunk => state_of (_add_to_collection chunk e)
  | Query q => query q e
  | Fetch => state_of (fetch e)
  | FetchSync => state_of (fetch_sync e)
  | GetResults =>
      match Engine_get_results e with
      | Some (e', _) => e'
      | None => e
      end
  end.

Definition run (ms : list method) (e : Engine) : Engine :=
  foldl (λ e' m, call m e') e ms.

(** The two methods that run the analysis pass. *)
Definition is_analysis (m : method) : bool :=
  match m with
  | AnalyzeCodebase _ | CreateVectorEmbeddings => true
  | _ => false
  end.

(** ** Project identity *)

(** SHA-256 does not send these two texts to the same digest. *)
Definition collision_free (s t : string) : Prop :=
  SHA256.hexdigest s = SHA256.hexdigest t → s = t.

(** ** Concrete engines and inputs of the examples *)

(** The example of the specification. *)
Definition example_store : store :=
  [mkResult "a" [1]; mkResult "b" [2]; mkResult "a" [3]].
Definition example_results : list loc := [0%nat; 1%nat; 2%nat].

(** An engine that has accumulated the results of the specification's
    example. *)
Definition example_engine : Engine :=
  set_results example_store example_results
    (init "/repo" empty_data (λ _, true) (mkFetchers [] [])).

Definition working_source (results : list Result) : Source.t :=
  Source.mk (λ _ _, true) (λ _ _, Some results) (λ _, true).

Definition failing_source : Source.t :=
  Source.mk (λ _ _, false) (λ _ _, None) (λ _, true).

Definition chunk1 : Chunk := mkChunk "c1" "a.py" "def f(): pass".
Definition chunk2 : Chunk := mkChunk "c2" "a.py" "def g(): pass".

Definition example_walk : Walk :=
  mkWalk ∅ ∅ ∅ ∅ ["a.py"] [mkFile "a.py" [chunk1; chunk2]].

(** Two sources that work. *)
Definition healthy_engine : Engine :=
  init "/repo" empty_data (λ _, true)
    (mkFetchers [working_source [mkResult "a" [1]]]
                [working_source [mkResult "b" [2]; mkResult "a" [3]]]).

(** The first source of the chain raises, the second one works. *)
Definition faulty_engine : Engine :=
  init "/repo" empty_data (λ _, true)
    (mkFetchers [failing_source] [working_source [mkResult "b" [2]]]).

(** The second source of the chain (the blocking one) raises. *)
Definition faulty_sync_engine : Engine :=
  init "/repo" empty_data (λ _, true)
    (mkFetchers [working_source [mkResult "a" [1]]] [failing_source]).

(** [n] ranked files, each with one chunk. *)
Definition ranked_files (n : nat) : list File :=
  (λ i, mkFile (pretty i) [mkChunk (pretty i) (pretty i) ""]) <$> seq 0 n.

(** A process outside pytest whose cache directory is under [~/.cache], on a
    file system where paths are already normalized. *)
Definition example_env : Env :=
  mkEnv ∅ (λ appname, ["/"; "home"; "user"; ".cache"; appname]) (λ p, p).


(** * More vocabulary *)

(** ** The merge *)

(** An object after the merge is the object before with a longer payload. *)
Definition grown (v v' : Result) : Prop :=
  ∃ added, v' = mkResult (path v) (payload v ++ added).

(** ** The analysis pass in closed form *)

(** The chunks of a list that the analysis loop dispatches: those whose id
    is neither recorded already nor met earlier in the list. *)
Fixpoint new_chunks (seen : gset string) (chunks : list Chunk) : list Chunk :=
  match chunks with
  | [] => []
  | chunk :: rest =>
      if decide (chunk_id chunk ∈ seen) then new_chunks seen rest
      else chunk :: new_chunks ({[ chunk_id chunk ]} ∪ seen) rest
  end.

(** Each chunk of a list handed to the sources [0 .. n-1], chunk after
    chunk. *)
Definition dispatch_all (n : nat) (chunks : list Chunk) : list event :=
  concat ((λ chunk, dispatches chunk 0 n) <$> chunks).

Definition chunk_ids (chunks : list Chunk) : gset string :=
  list_to_set (chunk_id <$> chunks).

(** The engine with the ids of some chunks recorded as analyzed. *)
Definition record_ids (chunks : list Chunk) (e : Engine) : Engine :=
  set_cache (set_chunks (chunk_ids chunks ∪ analyzed e) (_cache e)) e.

(** ** What the sources answered *)

(** An event at position [i] of a trace [t] records a call made when the
    trace was [take i t].  Between the positions [lo] and [hi] every
    [cache_chunk] call recorded in [t] returned. *)
Definition returned_in (sources : list Source.t) (t : list event) (lo hi : nat)
  : Prop :=
  ∀ i j chunk source,
    (lo ≤ i < hi)%nat →
    t !! i = Some (CacheChunk j chunk) →
    sources !! j = Some source →
    Source.cache_chunk source (take i t) chunk = true.

(** The last call recorded in [t] is [cache_chunk] of the source [k] for
    [chunk], and it raised. *)
Definition last_call_raised (sources : list Source.t) (t : list event) (k : nat)
    (chunk : Chunk) : Prop :=
  ∃ i source,
    length t = S i
    ∧ t !! i = Some (CacheChunk k chunk)
    ∧ sources !! k = Some source
    ∧ Source.cache_chunk source (take i t) chunk = false.

(** The trace of an outcome agrees with what the sources answer, from
    position [lo] on: a call that raised is the last event, and the outcome
    is that exception; every other call returned. *)
Definition calls_accounted (sources : list Source.t) (lo : nat) (o : outcome)
  : Prop :=
  let t := trace (state_of o) in
  match o with
  | Raised _ (CacheChunkRaised k chunk) =>
      (lo < length t)%nat
      ∧ last_call_raised sources t k chunk
      ∧ returned_in sources t lo (length t - 1)
  | _ => returned_in sources t lo (length t)
  end.

(** ** Strings *)

(** The line break. *)
Definition nl : ascii := ascii_of_nat 10.

(** Does a character occur in a string; do all characters of a string
    satisfy a test. *)
Fixpoint has_char (c : ascii) (s : string) : bool :=
  match s with
  | EmptyString => false
  | String a s' => if decide (a = c) then true else has_char c s'
  end.

Fixpoint all_chars (P : ascii → bool) (s : string) : bool :=
  match s with
  | EmptyString => true
  | String a s' => P a && all_chars P s'
  end.

Definition is_hex_digit (c : ascii) : bool := has_char c "0123456789abcdef".

(** ** More concrete engines and environments *)

(** Both sources raise. *)
Definition all_faulty_engine : Engine :=
  init "/repo" empty_data (λ _, true) (mkFetchers [failing_source] [failing_source]).


(** The same machine and user, once under pytest and once not. *)
Definition pytest_env : Env :=
  mkEnv {[ "PYTEST_CURRENT_TEST" ]} (user_cache_dir example_env) (resolve example_env).


(** * Properties *)

(** ** The dictionary *)

Lemma dict_get_None (d : dict) (k : string) :
  dict_get d k = None ↔ k ∉ dict_keys d.
Proof.
  unfold dict_keys. induction d as [|[k' v] d IH]; simpl.
  - split; [intros _; apply not_elem_of_nil | done].
  - case_decide as Hk; subst.
    + split; [done|]. intros Hn. destruct Hn. left.
    + rewrite IH, not_elem_of_cons. split; [by intros ?; split; [congruence|] | by intros [_ ?]].
Qed.

Lemma dict_get_Some (d : dict) (k : string) (v : loc) :
  dict_get d k = Some v → (k, v) ∈ d.
Proof.
  induction d as [|[k' v'] d IH]; simpl; [done|].
  case_decide; subst.
  - intros [= ->]. left.
  - intros. right. auto.
Qed.

Lemma dict_get_value (d : dict) (k : string) (v : loc) :
  dict_get d k = Some v → v ∈ dict_values d.
Proof.
  intros H%dict_get_Some. unfold dict_values.
  apply list_elem_of_fmap. by exists (k, v).
Qed.

Lemma dict_values_snoc (d : dict) (k : string) (v : loc) :
  dict_values (d ++ [(k, v)]) = dict_values d ++ [v].
Proof. unfold dict_values. by rewrite fmap_app. Qed.

Lemma dict_keys_snoc (d : dict) (k : string) (v : loc) :
  dict_keys (d ++ [(k, v)]) = dict_keys d ++ [k].
Proof. unfold dict_keys. by rewrite fmap_app. Qed.

(** ** Dereferencing *)

Lemma deref_cons (h : store) (r : loc) (rs : list loc) :
  deref h (r :: rs)
  = match h !! r with Some v => v :: deref h rs | None => deref h rs end.
Proof. done. Qed.

Lemma deref_app (h : store) (rs1 rs2 : list loc) :
  deref h (rs1 ++ rs2) = deref h rs1 ++ deref h rs2.
Proof. apply omap_app. Qed.

Lemma deref_snoc_Some (h : store) (r : loc) (rs : list loc) (v : Result) :
  h !! r = Some v → deref h (rs ++ [r]) = deref h rs ++ [v].
Proof. intros Hr. by rewrite deref_app, deref_cons, Hr. Qed.

Lemma deref_ext (h h' : store) (rs : list loc) :
  (∀ r, r ∈ rs → h' !! r = h !! r) → deref h' rs = deref h rs.
Proof.
  induction rs as [|x rs IH]; [done|]. intros Hagree.
  rewrite !deref_cons, Hagree by left.
  rewrite IH; [done|]. intros r Hr. apply Hagree. by right.
Qed.

Lemma deref_insert_notin (h : store) (r : loc) (v : Result) (rs : list loc) :
  r ∉ rs → deref (<[r := v]> h) rs = deref h rs.
Proof.
  intros Hnotin. apply deref_ext. intros x Hx.
  apply list_lookup_insert_ne. by intros ->.
Qed.

Lemma deref_length (h : store) (rs : list loc) :
  (∀ r, r ∈ rs → (r < length h)%nat) → length (deref h rs) = length rs.
Proof.
  induction rs as [|x rs IH]; [done|]. intros Halloc. rewrite deref_cons.
  destruct (lookup_lt_is_Some_2 h x) as [v Hv]; [apply Halloc; left|].
  rewrite Hv. simpl. f_equal. apply IH. intros r Hr. apply Halloc. by right.
Qed.

(** ** One step of the merge *)

Lemma extend_path (a b : Result) : path (extend a b) = path a.
Proof. done. Qed.

(** A step never changes the size of the store or the path of an object,
    only touches an entry of the dictionary, and only appends to the
    dictionary. *)
Lemma merge_step_frame (h h' : store) (m m' : dict) (r : loc) :
  merge_step h m r = Some (h', m') →
  length h' = length h
  ∧ (∀ x, path_at h' x = path_at h x)
  ∧ (∀ x, x ∉ dict_values m → h' !! x = h !! x)
  ∧ (m' = m ∨ (∃ item, h !! r = Some item ∧ (path item ∉ dict_keys m)
                       ∧ h' = h ∧ m' = m ++ [(path item, r)])).
Proof.
  unfold merge_step. intros Hstep.
  destruct (h !! r) as [item|] eqn:Hr; [|done].
  destruct (dict_get m (path item)) as [r0|] eqn:Hget.
  - destruct (h !! r0) as [entry|] eqn:Hr0; [|done].
    injection Hstep as <- <-. split_and!.
    + apply length_insert.
    + intros x. unfold path_at. destruct (decide (x = r0)) as [->|Hne].
      * rewrite list_lookup_insert_eq by (by eapply lookup_lt_Some).
        by rewrite Hr0.
      * by rewrite list_lookup_insert_ne.
    + intros x Hx. rewrite list_lookup_insert_ne; [done|].
      intros <-. apply Hx. by eapply dict_get_value.
    + by left.
  - injection Hstep as <- <-. split_and!; try done.
    right. exists item. by rewrite <-dict_get_None.
Qed.

Lemma merge_loop_snoc (h : store) (m : dict) (rs : list loc) (r : loc) :
  merge_loop h m (rs ++ [r])
  = match merge_loop h m rs with
    | None => None
    | Some (h', m') => merge_step h' m' r
    end.
Proof.
  revert h m. induction rs as [|x rs IH]; intros h m; simpl.
  - by destruct (merge_step h m r) as [[??]|].
  - destruct (merge_step h m x) as [[h1 m1]|]; [apply IH | done].
Qed.

(** The loop as a whole: sizes and paths are kept, objects outside the final
    dictionary are untouched, the dictionary only grows at its end. *)
Lemma merge_loop_frame (rs : list loc) (h h' : store) (m m' : dict) :
  merge_loop h m rs = Some (h', m') →
  length h' = length h
  ∧ (∀ x, path_at h' x = path_at h x)
  ∧ (∀ x, x ∉ dict_values m' → h' !! x = h !! x)
  ∧ (∃ new, m' = m ++ new ∧ dict_values new ⊆ rs).
Proof.
  revert h m. induction rs as [|r rs IH]; intros h m; simpl.
  - intros [= <- <-]. split_and!; try done. exists []. by rewrite app_nil_r.
  - destruct (merge_step h m r) as [[h1 m1]|] eqn:Hstep; [|done].
    intros Hloop. apply IH in Hloop as (Hlen & Hpath & Hframe & new & -> & Hnew).
    apply merge_step_frame in Hstep as (Hlen1 & Hpath1 & Hframe1 & Hm1).
    split_and!.
    + congruence.
    + intros x. by rewrite Hpath, Hpath1.
    + intros x Hx. rewrite Hframe by done. apply Hframe1.
      intros Hin. apply Hx. unfold dict_values in *. rewrite fmap_app.
      apply elem_of_app. left.
      destruct Hm1 as [->|(item & _ & _ & _ & ->)]; [done|].
      rewrite fmap_app. apply elem_of_app. by left.
    + destruct Hm1 as [->|(item & _ & _ & _ & ->)].
      * exists new. split; [done|]. intros x Hx. right. by apply Hnew.
      * exists ((path item, r) :: new). split; [by rewrite <-app_assoc|].
        unfold dict_values in *. simpl. intros x [->|Hx]%elem_of_cons; [left|].
        right. by apply Hnew.
Qed.

(** ** The merge on values *)

Lemma first_seen_elem (ps : list string) (p : string) :
  p ∈ first_seen ps ↔ p ∈ ps.
Proof.
  induction ps as [|q ps IH]; simpl; [done|].
  rewrite !elem_of_cons, list_elem_of_filter, IH.
  destruct (decide (p = q)); naive_solver.
Qed.

Lemma first_seen_NoDup (ps : list string) : NoDup (first_seen ps).
Proof.
  induction ps as [|q ps IH]; simpl; [constructor|].
  constructor; [|by apply NoDup_filter].
  rewrite list_elem_of_filter. naive_solver.
Qed.

Lemma first_seen_snoc (ps : list string) (p : string) :
  first_seen (ps ++ [p])
  = if decide (p ∈ ps) then first_seen ps else first_seen ps ++ [p].
Proof.
  induction ps as [|q ps IH]; simpl.
  - done.
  - rewrite IH. destruct (decide (p = q)) as [->|Hne].
    + rewrite (decide_True (P := q ∈ q :: ps)) by left.
      case_decide; [done|]. rewrite filter_app, filter_cons_False by naive_solver.
      by rewrite filter_nil, app_nil_r.
    + case_decide as Hin.
      * rewrite decide_True; [done | by right].
      * rewrite decide_False by (rewrite elem_of_cons; naive_solver).
        rewrite filter_app, filter_cons_True by done. by rewrite filter_nil.
Qed.

Lemma payloads_of_snoc (p : string) (rs : list Result) (r : Result) :
  payloads_of p (rs ++ [r])
  = payloads_of p rs ++ (if decide (path r = p) then payload r else []).
Proof.
  unfold payloads_of. rewrite filter_app, fmap_app, concat_app. f_equal.
  case_decide.
  - rewrite filter_cons_True by done. simpl. by rewrite app_nil_r.
  - by rewrite filter_cons_False.
Qed.

Lemma payloads_of_absent (p : string) (rs : list Result) :
  p ∉ path <$> rs → payloads_of p rs = [].
Proof.
  unfold payloads_of. induction rs as [|r rs IH]; [done|].
  rewrite fmap_cons, not_elem_of_cons. intros [Hne Hnotin].
  rewrite filter_cons_False by done. by apply IH.
Qed.

(** Merging one more value into the entries built from [rs]. *)
Lemma merge_into_entries (ps : list string) (rs : list Result) (r : Result) :
  NoDup ps →
  merge_into ((λ p, mkResult p (payloads_of p rs)) <$> ps) r
  = ((λ p, mkResult p (payloads_of p (rs ++ [r]))) <$> ps)
    ++ (if decide (path r ∈ ps) then [] else [r]).
Proof.
  induction ps as [|q ps IH]; [done|]. intros [Hq Hps]%NoDup_cons.
  rewrite !fmap_cons. simpl. destruct (decide (q = path r)) as [->|Hne].
  - rewrite (decide_True (P := path r ∈ path r :: ps)) by left.
    rewrite app_nil_r. unfold extend. simpl.
    rewrite payloads_of_snoc, decide_True by done. f_equal.
    apply list_fmap_ext. intros _ p Hp%list_elem_of_lookup_2.
    rewrite payloads_of_snoc, (decide_False (P := path r = p)), app_nil_r; [done|].
    by intros <-.
  - rewrite IH by done.
    rewrite payloads_of_snoc, (decide_False (P := path r = q)), app_nil_r by done.
    simpl. do 2 f_equal.
    destruct (decide (path r ∈ ps)) as [Hin|Hin].
    + rewrite decide_True; [done | by right].
    + rewrite decide_False; [done|]. rewrite elem_of_cons. naive_solver.
Qed.

(** The accumulation computes the entries of the declarative merge. *)
Lemma merge_values_merged_by_path (rs : list Result) :
  merge_values [] rs = merged_by_path rs.
Proof.
  unfold merge_values, merged_by_path.
  induction rs as [|r rs IH] using rev_ind; [done|].
  rewrite foldl_snoc, IH, merge_into_entries by apply first_seen_NoDup.
  rewrite (fmap_app path), (fmap_cons path), fmap_nil, first_seen_snoc.
  rewrite (decide_ext _ (path r ∈ path <$> rs)) by apply first_seen_elem.
  case_decide as Hin; [by rewrite app_nil_r|].
  rewrite fmap_app. simpl. do 2 f_equal.
  rewrite payloads_of_snoc, decide_True, payloads_of_absent by done.
  by destruct r.
Qed.

(** ** The merge on the store refines the merge on values *)

Lemma path_at_Some (h : store) (r : loc) (k : string) :
  path_at h r = Some k ↔ ∃ v, h !! r = Some v ∧ path v = k.
Proof.
  unfold path_at. destruct (h !! r) as [v|]; simpl; [|naive_solver].
  split; [intros [= <-]; eauto | by intros (? & [= <-] & <-)].
Qed.

Lemma dict_ok_cons (h : store) (k : string) (v : loc) (m : dict) :
  dict_ok h ((k, v) :: m) →
  (v ∉ dict_values m) ∧ path_at h v = Some k ∧ dict_ok h m.
Proof.
  unfold dict_ok, dict_values. rewrite fmap_cons, NoDup_cons.
  intros [[Hv Hnd] Hkeys]. split_and!; [done | apply Hkeys; left | done |].
  intros k' v' Hin. apply Hkeys. by right.
Qed.

Lemma merge_into_append (h : store) (m : dict) (item : Result) :
  dict_ok h m → dict_get m (path item) = None →
  merge_into (deref h (dict_values m)) item = deref h (dict_values m) ++ [item].
Proof.
  induction m as [|[k v] m IH]; [done|].
  intros (_ & (e & He & <-)%path_at_Some & Hok)%dict_ok_cons. simpl.
  case_decide as Hk; [done|]. intros Hget.
  rewrite He. simpl. rewrite decide_False by done. f_equal. by apply IH.
Qed.

Lemma merge_into_update (h : store) (m : dict) (item entry : Result) (r0 : loc) :
  dict_ok h m → dict_get m (path item) = Some r0 → h !! r0 = Some entry →
  merge_into (deref h (dict_values m)) item
  = deref (<[r0 := extend entry item]> h) (dict_values m).
Proof.
  induction m as [|[k v] m IH]; [done|].
  intros (Hv & (e & He & <-)%path_at_Some & Hok)%dict_ok_cons. simpl.
  rewrite He. simpl. case_decide as Hk.
  - intros [= ->] Hentry. assert (entry = e) as -> by congruence.
    rewrite list_lookup_insert_eq by (by eapply lookup_lt_Some).
    by rewrite deref_insert_notin.
  - intros Hget Hentry. rewrite list_lookup_insert_ne, He.
    + f_equal. by apply IH.
    + intros ->. apply Hv. by eapply dict_get_value.
Qed.

Lemma first_with_path_snoc (h : store) (results : list loc) (r x : loc) :
  first_with_path h results r → first_with_path h (results ++ [x]) r.
Proof.
  intros (i & Hi & Hfirst). exists i.
  pose proof (lookup_lt_Some _ _ _ Hi) as Hlt. split.
  - by rewrite lookup_app_l.
  - intros j r' Hj. rewrite lookup_app_l by lia. by apply Hfirst.
Qed.

(** The loop of [get_results] over distinct live objects: it ends, and the
    dictionary built holds, under first-seen references, the values the
    accumulation over values computes. *)
Lemma merge_loop_refines (h : store) (results : list loc) :
  NoDup results → (∀ r, r ∈ results → (r < length h)%nat) →
  ∃ h' m, merge_loop h [] results = Some (h', m)
    ∧ dict_ok h m
    ∧ dict_values m ⊆ results
    ∧ deref h' (dict_values m) = merge_values [] (deref h results)
    ∧ length (deref h' (dict_values m)) = length (dict_values m)
    ∧ (∀ r, r ∈ dict_values m → first_with_path h results r)
    ∧ (∀ r k, r ∈ results → path_at h r = Some k → k ∈ dict_keys m).
Proof.
  induction results as [|r results IH] using rev_ind; intros Hnd Halloc.
  - exists h, []. split_and!; try done.
    + split; [constructor | by intros ?? ?%elem_of_nil].
    + by intros ? ?%elem_of_nil.
    + by intros ?? ?%elem_of_nil.
  - apply NoDup_app in Hnd as (Hnd & Hfresh & _).
    destruct IH as (h1 & m1 & Hloop & [Hvals Hkeys] & Hsub & Hrefine & Hlive & Hfirst & Hcover);
      [done | by intros; apply Halloc, elem_of_app; left |].
    pose proof (merge_loop_frame _ _ _ _ _ Hloop) as (Hlen & Hpath & Hframe & _).
    assert (r ∉ results) as Hr by (intros Hin; eapply Hfresh; [done | left]).
    assert (r ∉ dict_values m1) as Hr1 by (intros Hin; by apply Hr, Hsub).
    destruct (lookup_lt_is_Some_2 h r) as [item Hitem];
      [apply Halloc, elem_of_app; right; left|].
    assert (h1 !! r = Some item) as Hitem1 by (by rewrite Hframe).
    assert (dict_ok h1 m1) as Hok1.
    { split; [done|]. intros k v Hin. rewrite Hpath. by apply Hkeys. }
    rewrite merge_loop_snoc, Hloop. unfold merge_step. rewrite Hitem1.
    rewrite (deref_snoc_Some _ _ _ _ Hitem).
    unfold merge_values in *. rewrite foldl_snoc, <-Hrefine.
    destruct (dict_get m1 (path item)) as [r0|] eqn:Hget.
    + assert (r0 ∈ dict_values m1) as Hr0 by (by eapply dict_get_value).
      destruct (lookup_lt_is_Some_2 h1 r0) as [entry Hentry].
      { rewrite Hlen. apply Halloc, elem_of_app. left. by apply Hsub. }
      rewrite Hentry. eexists _, _. split; [done|]. split_and!.
      * done.
      * intros x Hx. apply elem_of_app. left. by apply Hsub.
      * symmetry. by apply merge_into_update.
      * apply deref_length. intros x Hx. rewrite length_insert, Hlen.
        apply Halloc, elem_of_app. left. by apply Hsub.
      * intros x Hx. by apply first_with_path_snoc, Hfirst.
      * intros x k [Hx|Hx%list_elem_of_singleton]%elem_of_app Hk;
          [by eapply Hcover|]. subst x.
        apply path_at_Some in Hk as (v & Hv & <-).
        assert (v = item) as -> by congruence.
        apply dict_get_Some in Hget. unfold dict_keys.
        apply list_elem_of_fmap. by exists (path item, r0).
    + eexists _, _. split; [done|]. rewrite dict_values_snoc. split_and!.
      * split.
        -- rewrite dict_values_snoc. apply NoDup_app. split_and!; [done| |apply NoDup_singleton].
           intros x Hx Hx'%list_elem_of_singleton. by subst x.
        -- intros k v [Hin|Heq%list_elem_of_singleton]%elem_of_app;
             [by apply Hkeys|]. injection Heq as -> ->. apply path_at_Some. eauto.
      * intros x [Hx|Hx]%elem_of_app; apply elem_of_app; [left; by apply Hsub | by right].
      * rewrite (deref_snoc_Some _ _ _ _ Hitem1). symmetry. by apply merge_into_append.
      * rewrite (deref_snoc_Some _ _ _ _ Hitem1), !length_app, Hlive. done.
      * intros x [Hx|Hx%list_elem_of_singleton]%elem_of_app;
          [by apply first_with_path_snoc, Hfirst|]. subst x.
        exists (length results). split; [by rewrite list_lookup_middle|].
        intros j r' Hj. rewrite lookup_app_l by done. intros Hr' Heq.
        assert (path_at h r = Some (path item)) as Hpr by (apply path_at_Some; eauto).
        apply dict_get_None in Hget. apply Hget.
        eapply Hcover; [by eapply list_elem_of_lookup_2 | congruence].
      * intros x k [Hx|Hx%list_elem_of_singleton]%elem_of_app Hk;
          rewrite dict_keys_snoc; apply elem_of_app; [left; by eapply Hcover|].
        subst x. right. apply path_at_Some in Hk as (v & Hv & <-).
        assert (v = item) as -> by congruence. left.
Qed.

Lemma merged_by_path_paths (rs : list Result) :
  path <$> merged_by_path rs = first_seen (path <$> rs).
Proof.
  unfold merged_by_path. rewrite <-list_fmap_compose.
  rewrite <-(list_fmap_id (first_seen (path <$> rs))) at 2.
  by apply list_fmap_ext.
Qed.

Lemma merged_by_path_payload (rs : list Result) (e : Result) :
  e ∈ merged_by_path rs → payload e = payloads_of (path e) rs.
Proof.
  unfold merged_by_path. by intros (p & -> & _)%list_elem_of_fmap.
Qed.

(** ** What [get_results] does to the store, whatever the list *)

Lemma merge_step_paths_only (h1 h2 h1' : store) (m m' : dict) (r : loc) :
  (∀ x, path_at h1 x = path_at h2 x) →
  merge_step h1 m r = Some (h1', m') →
  ∃ h2', merge_step h2 m r = Some (h2', m') ∧ ∀ x, path_at h1' x = path_at h2' x.
Proof.
  intros Hagree Hstep.
  assert (∀ h2', merge_step h2 m r = Some (h2', m') →
                 ∀ x, path_at h1' x = path_at h2' x) as Hkeep.
  { intros h2' (_ & Hp2 & _)%merge_step_frame x.
    apply merge_step_frame in Hstep as (_ & Hp1 & _). by rewrite Hp1, Hp2. }
  revert Hstep Hkeep. unfold merge_step.
  destruct (h1 !! r) as [item|] eqn:Hr; [|done].
  assert (path_at h2 r = Some (path item)) as Hr2.
  { rewrite <-Hagree. apply path_at_Some. eauto. }
  apply path_at_Some in Hr2 as (item2 & -> & ->).
  destruct (dict_get m (path item)) as [r0|]; [|intros [= <- <-]; eauto].
  destruct (h1 !! r0) as [entry|] eqn:Hr0; [|done].
  assert (path_at h2 r0 = Some (path entry)) as Hr02.
  { rewrite <-Hagree. apply path_at_Some. eauto. }
  apply path_at_Some in Hr02 as (entry2 & -> & _).
  intros [= <- <-]. eauto.
Qed.

(** The dictionary built by the loop depends on the paths alone. *)
Lemma merge_loop_paths_only (rs : list loc) (h1 h2 h1' : store) (m m' : dict) :
  (∀ x, path_at h1 x = path_at h2 x) →
  merge_loop h1 m rs = Some (h1', m') →
  ∃ h2', merge_loop h2 m rs = Some (h2', m').
Proof.
  revert h1 h2 m. induction rs as [|r rs IH]; intros h1 h2 m Hagree; simpl.
  - intros [= <- <-]. eauto.
  - destruct (merge_step h1 m r) as [[h1a ma]|] eqn:Hstep; [|done].
    destruct (merge_step_paths_only _ _ _ _ _ _ Hagree Hstep) as (h2a & -> & Hagree').
    by apply IH.
Qed.

(** Live references never make the loop fail. *)
Lemma merge_loop_total (rs : list loc) (h : store) (m : dict) :
  (∀ r, r ∈ rs → (r < length h)%nat) →
  (∀ v, v ∈ dict_values m → (v < length h)%nat) →
  is_Some (merge_loop h m rs).
Proof.
  revert h m. induction rs as [|r rs IH]; intros h m Hrs Hm; simpl; [eauto|].
  assert (∃ h1 m1, merge_step h m r = Some (h1, m1)) as (h1 & m1 & Hstep).
  { unfold merge_step.
    destruct (lookup_lt_is_Some_2 h r) as [item ->]; [apply Hrs; left|].
    destruct (dict_get m (path item)) as [r0|] eqn:Hget; [|eauto].
    destruct (lookup_lt_is_Some_2 h r0) as [entry ->]; [|eauto].
    by eapply Hm, dict_get_value. }
  rewrite Hstep.
  pose proof (merge_step_frame _ _ _ _ _ Hstep) as (Hlen & _ & _ & Hm1).
  apply IH; rewrite Hlen.
  - intros x Hx. apply Hrs. by right.
  - destruct Hm1 as [->|(item & _ & _ & _ & ->)]; [done|].
    rewrite dict_values_snoc. intros v [Hv|Hv%list_elem_of_singleton]%elem_of_app;
      [by apply Hm | subst v; apply Hrs; left].
Qed.

(** When no two results share a path nothing is ever extended. *)
Lemma merge_loop_distinct_paths (rs : list loc) (h h' : store) (m m' : dict) :
  merge_loop h m rs = Some (h', m') →
  NoDup (omap (path_at h) rs) →
  (∀ p, p ∈ omap (path_at h) rs → p ∉ dict_keys m) →
  h' = h.
Proof.
  revert m. induction rs as [|r rs IH]; intros m; [by intros [= <- <-]|].
  intros Hloop Hnd Hkeys. simpl in Hloop, Hnd, Hkeys. unfold merge_step in Hloop.
  destruct (h !! r) as [item|] eqn:Hr; [|done].
  assert (path_at h r = Some (path item)) as Hp by (apply path_at_Some; eauto).
  rewrite Hp in Hnd, Hkeys. apply NoDup_cons in Hnd as [Hitem Hnd].
  destruct (dict_get m (path item)) as [r0|] eqn:Hget.
  - exfalso. eapply Hkeys; [left|]. apply dict_get_Some in Hget.
    unfold dict_keys. apply list_elem_of_fmap. by exists (path item, r0).
  - eapply IH; [done..|]. intros p Hp'. rewrite dict_keys_snoc.
    intros [Hin|Hin%list_elem_of_singleton]%elem_of_app.
    + eapply Hkeys; [by right | done].
    + by subst p.
Qed.

(** ** What the loop does to the entries *)

(** The loop only ends on live references. *)
Lemma merge_loop_live (rs : list loc) (h h' : store) (m m' : dict) :
  merge_loop h m rs = Some (h', m') → ∀ r, r ∈ rs → (r < length h)%nat.
Proof.
  revert h m. induction rs as [|x rs IH]; intros h m; simpl.
  - by intros _ r ?%elem_of_nil.
  - destruct (merge_step h m x) as [[h1 m1]|] eqn:Hstep; [|done].
    intros Hloop r [->|Hr]%elem_of_cons.
    + unfold merge_step in Hstep.
      destruct (h !! x) as [item|] eqn:Hx; [|done]. by eapply lookup_lt_Some.
    + apply merge_step_frame in Hstep as (Hlen & _). rewrite <-Hlen. by eapply IH.
Qed.

Lemma payloads_of_app (p : string) (rs1 rs2 : list Result) :
  payloads_of p (rs1 ++ rs2) = payloads_of p rs1 ++ payloads_of p rs2.
Proof. unfold payloads_of. by rewrite filter_app, fmap_app, concat_app. Qed.

(** The payloads of a path, seen from the first result that has it: its own
    payload, then the payloads of the later results of the path. *)
Lemma payloads_of_first (h : store) (results : list loc) (i : nat) (r : loc)
    (v : Result) :
  results !! i = Some r → h !! r = Some v →
  (∀ j r', (j < i)%nat → results !! j = Some r' → path_at h r' ≠ Some (path v)) →
  payloads_of (path v) (deref h results)
  = payload v ++ payloads_of (path v) (deref h (drop (S i) results)).
Proof.
  intros Hi Hr Hfirst.
  rewrite <-(take_drop_middle results i r Hi) at 1.
  rewrite deref_app, deref_cons, Hr, payloads_of_app.
  rewrite (payloads_of_absent _ (deref h (take i results))).
  - change (v :: ?l) with ([v] ++ l). rewrite payloads_of_app. simpl. f_equal.
    unfold payloads_of. rewrite filter_cons_True by done. simpl. apply app_nil_r.
  - intros (x & Hpx & Hx)%list_elem_of_fmap.
    apply list_elem_of_omap in Hx as (r' & Hr' & Hx).
    apply list_elem_of_lookup in Hr' as (j & Hj).
    apply lookup_take_Some in Hj as (Hj & Hlt).
    eapply Hfirst; [done..|]. unfold path_at. rewrite Hx. simpl. by rewrite Hpx.
Qed.

(** Over distinct objects every entry of the dictionary is the first result
    of its path, and the loop leaves it extended, in place, with the payloads
    of the later results of that path. *)
Lemma merge_loop_entries (h h' : store) (m : dict) (results : list loc) :
  NoDup results →
  merge_loop h [] results = Some (h', m) →
  ∀ r, r ∈ dict_values m →
    ∃ i v, results !! i = Some r
      ∧ h !! r = Some v
      ∧ (∀ j r', (j < i)%nat → results !! j = Some r' → path_at h r' ≠ Some (path v))
      ∧ h' !! r
        = Some (mkResult (path v)
                  (payload v ++ payloads_of (path v) (deref h (drop (S i) results)))).
Proof.
  intros Hnd Hloop r Hr.
  pose proof (merge_loop_live _ _ _ _ _ Hloop) as Halloc.
  destruct (merge_loop_refines h results Hnd Halloc)
    as (h1 & m1 & Hloop1 & _ & Hsub & Hrefine & _ & Hfirst & _).
  rewrite Hloop in Hloop1. injection Hloop1 as <- <-.
  rewrite merge_values_merged_by_path in Hrefine.
  pose proof (merge_loop_frame _ _ _ _ _ Hloop) as (Hlen & Hpath & _).
  destruct (Hfirst r Hr) as (i & Hi & Hbefore).
  destruct (lookup_lt_is_Some_2 h r) as [v Hv]; [by apply Halloc, Hsub|].
  destruct (lookup_lt_is_Some_2 h' r) as [v' Hv'];
    [rewrite Hlen; by apply Halloc, Hsub|].
  assert (path_at h r = Some (path v)) as Hpv by (apply path_at_Some; eauto).
  exists i, v. split_and!; [done | done | |].
  - intros j r' Hj Hr'. rewrite <-Hpv. by eapply Hbefore.
  - assert (v' ∈ deref h' (dict_values m)) as Hin.
    { apply list_elem_of_omap. by exists r. }
    rewrite Hrefine in Hin.
    pose proof (merged_by_path_payload _ _ Hin) as Hpayload.
    assert (path v' = path v) as Hsame.
    { pose proof (Hpath r) as Hp. unfold path_at in Hp. rewrite Hv, Hv' in Hp.
      simpl in Hp. congruence. }
    rewrite Hsame in Hpayload.
    rewrite (payloads_of_first h results i r v) in Hpayload; [|done..|].
    + rewrite Hv'. destruct v' as [p' pl']. simpl in *. by subst.
    + intros j r' Hj Hr'. rewrite <-Hpv. by eapply Hbefore.
Qed.

(** ** Properties of [get_results] *)

Example get_results_example :
  get_results example_store example_results
  = Some ([mkResult "a" [1; 3]; mkResult "b" [2]; mkResult "a" [3]],
          [0%nat; 1%nat]).
Proof. reflexivity. Qed.

Example merged_by_path_example :
  merged_by_path example_store = [mkResult "a" [1; 3]; mkResult "b" [2]].
Proof. reflexivity. Qed.

(** The same object listed three times: each [extend] reads the payload the
    entry has by then, so the payload doubles twice. *)
Example get_results_aliased :
  get_results [mkResult "a" [1]] [0%nat; 0%nat; 0%nat]
  = Some ([mkResult "a" [1; 1; 1; 1]], [0%nat]).
Proof. reflexivity. Qed.

(** C1. Over an accumulated list of distinct result objects [get_results]
    returns one entry per distinct path, in order of first appearance; the
    entry of a path is the first object seen with that path, and its payload
    is the payload of that object followed by the payloads of the later
    results of the same path, in order.  On the example of the
    specification this is [a:[1,3]], [b:[2]] (the witness). *)
Theorem get_results_merges_by_path (h : store) (results : list loc) :
  NoDup results →
  (∀ r, r ∈ results → (r < length h)%nat) →
  ∃ h' out,
    get_results h results = Some (h', out)
    ∧ length (deref h' out) = length out
    ∧ deref h' out = merged_by_path (deref h results)
    ∧ path <$> deref h' out = first_seen (path <$> deref h results)
    ∧ NoDup (path <$> deref h' out)
    ∧ (∀ entry, entry ∈ deref h' out →
         payload entry = payloads_of (path entry) (deref h results))
    ∧ (∀ r, r ∈ out → first_with_path h results r).
Proof.
  intros Hnd Halloc.
  destruct (merge_loop_refines h results Hnd Halloc)
    as (h' & m & Hloop & _ & _ & Hrefine & Hlive & Hfirst & _).
  rewrite merge_values_merged_by_path in Hrefine.
  exists h', (dict_values m). unfold get_results. rewrite Hloop, Hrefine.
  split_and!; try done.
  - by rewrite <-Hrefine.
  - apply merged_by_path_paths.
  - rewrite merged_by_path_paths. apply first_seen_NoDup.
  - apply merged_by_path_payload.
Qed.

Lemma get_results_merges_by_path_witness :
  NoDup example_results
  ∧ (∀ r, r ∈ example_results → (r < length example_store)%nat)
  ∧ ∃ h' out,
      get_results example_store example_results = Some (h', out)
      ∧ deref h' out = [mkResult "a" [1; 3]; mkResult "b" [2]].
Proof.
  assert (NoDup example_results) as Hnd.
  { unfold example_results. repeat (apply NoDup_cons; split);
      [by intros [[=]|[[=]|?%elem_of_nil]%elem_of_cons]%elem_of_cons
      |by intros [[=]|?%elem_of_nil]%elem_of_cons
      |by intros ?%elem_of_nil | apply NoDup_nil_2]. }
  assert (∀ r, r ∈ example_results → (r < length example_store)%nat) as Halloc.
  { intros r Hr. unfold example_results in Hr. simpl.
    repeat (apply elem_of_cons in Hr as [->|Hr]; [lia|]). by apply elem_of_nil in Hr. }
  split; [done|]. split; [done|].
  destruct (get_results_merges_by_path _ _ Hnd Halloc)
    as (h' & out & Hget & _ & Hmerged & _).
  exists h', out. split; [done|]. rewrite Hmerged. reflexivity.
Defined.

(** C8, as the specification has it, fails: on the example of the
    specification the first object of path [a] is modified in place, and a
    second call returns a different payload for it. *)
Lemma get_results_modifies_result_objects :
  ∃ e1 out1 e2 out2,
    Engine_get_results example_engine = Some (e1, out1)
    ∧ Engine_get_results e1 = Some (e2, out2)
    ∧ objects example_engine !! 0%nat = Some (mkResult "a" [1])
    ∧ objects e1 !! 0%nat = Some (mkResult "a" [1; 3])
    ∧ deref (objects e1) out1 = [mkResult "a" [1; 3]; mkResult "b" [2]]
    ∧ deref (objects e2) out2 = [mkResult "a" [1; 3; 3]; mkResult "b" [2]].
Proof. eexists _, _, _, _. split_and!; reflexivity. Qed.

(** C8, as the code has it.  [get_results] leaves the accumulated list and
    everything but the object store as they are; in the store no object is
    added or removed, no path changes, and every object that is not one of
    the returned entries is untouched.  The returned entries are modified:
    over distinct result objects each entry is the first result of its path,
    and it is left extended, in place, with the payloads of the later results
    of that path, in order.  A second call returns the same entries (the same
    objects in the same order).  When no two accumulated results share a
    path, nothing at all is changed. *)
Theorem get_results_effect (e e' : Engine) (out : list loc) :
  Engine_get_results e = Some (e', out) →
  e' = set_results (objects e') (_results e) e
  ∧ length (objects e') = length (objects e)
  ∧ (∀ x, path_at (objects e') x = path_at (objects e) x)
  ∧ (∀ x, x ∉ out → objects e' !! x = objects e !! x)
  ∧ (NoDup (_results e) →
     ∀ r, r ∈ out →
       ∃ i v, _results e !! i = Some r
         ∧ objects e !! r = Some v
         ∧ (∀ j r', (j < i)%nat → _results e !! j = Some r' →
              path_at (objects e) r' ≠ Some (path v))
         ∧ objects e' !! r
           = Some (mkResult (path v)
                     (payload v
                      ++ payloads_of (path v)
                           (deref (objects e) (drop (S i) (_results e))))))
  ∧ (∃ e'', Engine_get_results e' = Some (e'', out))
  ∧ (NoDup (omap (path_at (objects e)) (_results e)) → e' = e).
Proof.
  unfold Engine_get_results, get_results.
  destruct (merge_loop (objects e) [] (_results e)) as [[h' m]|] eqn:Hloop; [|done].
  intros [= <- <-]. simpl.
  pose proof (merge_loop_frame _ _ _ _ _ Hloop) as (Hlen & Hpath & Hframe & _).
  split_and!; try done.
  - intros Hnd r Hr. by eapply merge_loop_entries.
  - destruct (merge_loop_paths_only _ (objects e) h' _ _ _ (λ x, eq_sym (Hpath x)) Hloop)
      as (h'' & ->). eauto.
  - intros Hnd.
    assert (h' = objects e) as ->; [|by destruct e].
    eapply merge_loop_distinct_paths; [done..|]. by intros ? _ ?%elem_of_nil.
Qed.

(** On the example of the specification the object of [a.py] that came first
    ends with the payloads [1; 3], the other objects are as they were. *)
Lemma get_results_effect_witness :
  ∃ e' out,
    Engine_get_results example_engine = Some (e', out)
    ∧ _results e' = _results example_engine
    ∧ (∀ x, x ∉ out → objects e' !! x = objects example_engine !! x)
    ∧ (∃ i v, _results example_engine !! i = Some 0%nat
         ∧ objects example_engine !! 0%nat = Some v
         ∧ objects e' !! 0%nat
           = Some (mkResult (path v)
                     (payload v
                      ++ payloads_of (path v)
                           (deref (objects example_engine)
                              (drop (S i) (_results example_engine))))))
    ∧ objects e' !! 0%nat = Some (mkResult "a" [1; 3])
    ∧ ∃ e'', Engine_get_results e' = Some (e'', out).
Proof.
  eexists _, _. split; [reflexivity|].
  match goal with |- _ ∧ (∀ x, x ∉ ?out → objects ?e' !! _ = _) ∧ _ =>
    destruct (get_results_effect example_engine e' out eq_refl)
      as (He' & _ & _ & Hframe & Hentries & Hagain & _) end.
  split; [reflexivity|]. split; [exact Hframe|]. split.
  - assert (NoDup (_results example_engine)) as Hnd.
    { simpl. unfold example_results. repeat (apply NoDup_cons; split);
        [by intros [[=]|[[=]|?%elem_of_nil]%elem_of_cons]%elem_of_cons
        |by intros [[=]|?%elem_of_nil]%elem_of_cons
        |by intros ?%elem_of_nil | apply NoDup_nil_2]. }
    destruct (Hentries Hnd 0%nat) as (i & v & Hi & Hv & _ & Hv'); [left|].
    exists i, v. split_and!; done.
  - split; [reflexivity | exact Hagain].
Defined.

(** ** Analysis: dispatching one chunk *)

Lemma set_trace_set_trace (t t' : list event) (e : Engine) :
  set_trace t (set_trace t' e) = set_trace t e.
Proof. done. Qed.

Lemma set_trace_id (e : Engine) : set_trace (trace e) e = e.
Proof. by destruct e. Qed.

Lemma dispatches_S (chunk : Chunk) (i n : nat) :
  dispatches chunk i (S n) = CacheChunk i chunk :: dispatches chunk (S i) n.
Proof. done. Qed.

(** The loop over the sources changes the trace only.  When it returns every
    source was called once, in chain order; when it raises, the raising call
    is the last one made. *)
Lemma add_loop_outcome (sources : list Source.t) (chunk : Chunk) (i : nat)
    (e : Engine) :
  match add_loop i sources chunk e with
  | Returned e' =>
      e' = set_trace (trace e ++ dispatches chunk i (length sources)) e
  | Raised e' x =>
      ∃ k, (k < length sources)%nat
           ∧ x = CacheChunkRaised (i + k) chunk
           ∧ e' = set_trace (trace e ++ dispatches chunk i (S k)) e
  end.
Proof.
  revert i e. induction sources as [|source rest IH]; intros i e; simpl.
  - unfold dispatches. simpl. by rewrite app_nil_r, set_trace_id.
  - destruct (Source.cache_chunk source (trace e) chunk).
    + specialize (IH (S i) (log_event (CacheChunk i chunk) e)).
      destruct (add_loop (S i) rest chunk _) as [e'|e' x].
      * rewrite IH. unfold log_event. simpl.
        by rewrite set_trace_set_trace, <-app_assoc.
      * destruct IH as (k & Hk & -> & ->). exists (S k). split_and!; [lia | f_equal; lia |].
        unfold log_event. simpl. by rewrite set_trace_set_trace, <-app_assoc.
    + exists 0%nat. split_and!; [lia | f_equal; lia | done].
Qed.

Lemma add_to_collection_outcome (chunk : Chunk) (e : Engine) :
  match _add_to_collection chunk e with
  | Returned e' =>
      e' = set_trace (trace e ++ dispatches chunk 0 (length (chain (_fetchers e)))) e
  | Raised e' x =>
      ∃ k, (k < length (chain (_fetchers e)))%nat
           ∧ x = CacheChunkRaised k chunk
           ∧ e' = set_trace (trace e ++ dispatches chunk 0 (S k)) e
  end.
Proof. apply add_loop_outcome. Qed.

(** ** Analysis: the loop over the chunks *)

Lemma analysis_step_refl (e : Engine) : analysis_step e e.
Proof.
  exists ∅, []. rewrite (left_id_L ∅ (∪)), app_nil_r.
  by destruct e as [? ? ? ? [] ? ? ? ?].
Qed.

Lemma analysis_step_trans (e1 e2 e3 : Engine) :
  analysis_step e1 e2 → analysis_step e2 e3 → analysis_step e1 e3.
Proof.
  intros (ids1 & t1 & ->) (ids2 & t2 & ->).
  exists (ids2 ∪ ids1), (t1 ++ t2). unfold analyzed. simpl.
  by rewrite (assoc_L (∪)), app_assoc.
Qed.

Lemma analysis_step_trace (t : list event) (e : Engine) :
  analysis_step e (set_trace (trace e ++ t) e).
Proof.
  exists ∅, t. rewrite (left_id_L ∅ (∪)). by destruct e as [? ? ? ? [] ? ? ? ?].
Qed.

Lemma analysis_step_mark (id : string) (e : Engine) :
  analysis_step e (mark_analyzed id e).
Proof.
  exists {[ id ]}, []. rewrite app_nil_r. by destruct e.
Qed.

Lemma analysis_step_analyzed (e e' : Engine) :
  analysis_step e e' → analyzed e ⊆ analyzed e'.
Proof. intros (ids & t & ->). unfold analyzed. simpl. set_solver. Qed.

Lemma analysis_step_fetchers (e e' : Engine) :
  analysis_step e e' → _fetchers e' = _fetchers e.
Proof. by intros (ids & t & ->). Qed.

Lemma analysis_step_prefix (e e' : Engine) :
  analysis_step e e' → ∃ t, trace e' = trace e ++ t.
Proof. intros (ids & t & ->). by exists t. Qed.

Create HintDb engine.
#[local] Hint Resolve analysis_step_refl analysis_step_trace analysis_step_mark : engine.

Lemma add_to_collection_step (chunk : Chunk) (e : Engine) :
  analysis_step e (state_of (_add_to_collection chunk e)).
Proof.
  pose proof (add_to_collection_outcome chunk e) as H.
  destruct (_add_to_collection chunk e) as [e'|e' x]; simpl.
  - subst e'. auto with engine.
  - destruct H as (k & _ & _ & ->). auto with engine.
Qed.

Lemma analyze_loop_step (chunks : list Chunk) (e : Engine) :
  analysis_step e (state_of (analyze_loop chunks e)).
Proof.
  revert e. induction chunks as [|chunk rest IH]; intros e; simpl.
  - apply analysis_step_refl.
  - case_decide; [apply IH|].
    pose proof (add_to_collection_step chunk e) as Hadd.
    destruct (_add_to_collection chunk e) as [e1|e1 x]; simpl in *; [|done].
    eapply analysis_step_trans; [done|].
    eapply analysis_step_trans; [apply analysis_step_mark | apply IH].
Qed.

(** When the loop returns, every chunk it was given is recorded. *)
Lemma analyze_loop_returned (chunks : list Chunk) (e e' : Engine) :
  analyze_loop chunks e = Returned e' →
  ∀ chunk, chunk ∈ chunks → chunk_id chunk ∈ analyzed e'.
Proof.
  revert e. induction chunks as [|c rest IH]; intros e; simpl.
  - by intros _ ? ?%elem_of_nil.
  - intros Hloop chunk Hin.
    assert (chunk_id c ∈ analyzed e' ∧ ∀ x, x ∈ rest → chunk_id x ∈ analyzed e')
      as [Hc Hrest].
    { case_decide as Hc.
      - split; [|by eapply IH].
        pose proof (analyze_loop_step rest e) as Hstep. rewrite Hloop in Hstep.
        by apply (analysis_step_analyzed _ _ Hstep).
      - destruct (_add_to_collection c e) as [e1|e1 x]; simpl in *; [|done].
        split; [|by eapply IH].
        pose proof (analyze_loop_step rest (mark_analyzed (chunk_id c) e1)) as Hstep.
        rewrite Hloop in Hstep. apply (analysis_step_analyzed _ _ Hstep).
        unfold analyzed. simpl. set_solver. }
    apply elem_of_cons in Hin as [->|Hin]; auto.
Qed.

(** Chunks already recorded are skipped: nothing at all happens. *)
Lemma analyze_loop_skip (chunks : list Chunk) (e : Engine) :
  (∀ chunk, chunk ∈ chunks → chunk_id chunk ∈ analyzed e) →
  analyze_loop chunks e = Returned e.
Proof.
  induction chunks as [|c rest IH]; intros Hin; simpl; [done|].
  rewrite decide_True by (apply Hin; left). apply IH. intros x Hx. apply Hin. by right.
Qed.

(** When the loop raises, it is the dispatch of some chunk that raised; the
    chunks before it are recorded, the chunk itself is not, and the raising
    call is the last event. *)
Lemma analyze_loop_raised (chunks : list Chunk) (e e' : Engine) (x : exn) :
  analyze_loop chunks e = Raised e' x →
  ∃ k chunk before after t,
    x = CacheChunkRaised k chunk
    ∧ chunks = before ++ chunk :: after
    ∧ (∀ c, c ∈ before → chunk_id c ∈ analyzed e')
    ∧ (chunk_id chunk ∉ analyzed e')
    ∧ (k < length (chain (_fetchers e')))%nat
    ∧ trace e' = trace e ++ t ++ dispatches chunk 0 (S k)
    ∧ (∀ j c, CacheChunk j c ∈ t → chunk_id c ∈ analyzed e').
Proof.
  revert e. induction chunks as [|c rest IH]; intros e; simpl; [done|].
  case_decide as Hc.
  - intros Hloop.
    pose proof (analyze_loop_step rest e) as Hstep. rewrite Hloop in Hstep.
    apply IH in Hloop
      as (k & chunk & before & after & t & -> & -> & Hbefore & Hchunk & Hk & Ht & Hev).
    exists k, chunk, (c :: before), after, t. split_and!; try done.
    intros c' [->|Hc']%elem_of_cons; [|by apply Hbefore].
    by apply (analysis_step_analyzed _ _ Hstep).
  - pose proof (add_to_collection_outcome c e) as Hadd.
    destruct (_add_to_collection c e) as [e1|e1 x1]; simpl.
    + intros Hloop.
      pose proof (analyze_loop_step rest (mark_analyzed (chunk_id c) e1)) as Hstep.
      rewrite Hloop in Hstep.
      apply IH in Hloop
        as (k & chunk & before & after & t & -> & -> & Hbefore & Hchunk & Hk & Ht & Hev).
      exists k, chunk, (c :: before), after,
        (dispatches c 0 (length (chain (_fetchers e))) ++ t).
      split_and!; try done.
      * intros c' [->|Hc']%elem_of_cons; [|by apply Hbefore].
        apply (analysis_step_analyzed _ _ Hstep). unfold analyzed. simpl. set_solver.
      * rewrite Ht, Hadd. simpl. by rewrite <-!app_assoc.
      * assert (chunk_id c ∈ analyzed e') as Hc'.
        { apply (analysis_step_analyzed _ _ Hstep). unfold analyzed. simpl. set_solver. }
        intros j c' [Hin|Hin]%elem_of_app; [|by eapply Hev].
        unfold dispatches in Hin. apply list_elem_of_fmap in Hin as (i & [= _ ->] & _).
        done.
    + intros [= <- <-]. destruct Hadd as (k & Hk & -> & ->).
      exists k, c, [], rest, []. split_and!; try done.
      * by intros ? ?%elem_of_nil.
      * by intros ?? ?%elem_of_nil.
Qed.

(** ** Analysis: persisting, and the whole pass *)

Lemma persist_cache_state (e : Engine) :
  state_of (persist_cache e) = set_trace (trace e ++ [CachePersist]) e.
Proof. unfold persist_cache. by destruct (cache_persist e (trace e)). Qed.

Lemma persist_loop_state (sources : list Source.t) (i : nat) (e : Engine) :
  ∃ n, (n ≤ length sources)%nat
       ∧ state_of (persist_loop i sources e) = set_trace (trace e ++ persists i n) e.
Proof.
  revert i e. induction sources as [|source rest IH]; intros i e; simpl.
  - exists 0%nat. split; [done|]. unfold persists. simpl.
    by rewrite app_nil_r, set_trace_id.
  - destruct (Source.persist source (trace e)).
    + destruct (IH (S i) (log_event (SourcePersist i) e)) as (n & Hn & ->).
      exists (S n). split; [lia|]. unfold log_event, persists. simpl.
      by rewrite set_trace_set_trace, <-app_assoc.
    + exists 1%nat. split; [lia | done].
Qed.

Lemma state_of_bind (o : outcome) (k : Engine → outcome) :
  state_of (o >>> k)
  = match o with Returned e => state_of (k e) | Raised e _ => e end.
Proof. by destruct o. Qed.

(** After the loop over the chunks only [persist] calls are made. *)
Lemma persist_phase_state (e : Engine) :
  ∃ n, state_of (persist_cache e >>> λ e2, persist_loop 0 (chain (_fetchers e2)) e2)
       = set_trace (trace e ++ CachePersist :: persists 0 n) e.
Proof.
  unfold persist_cache. destruct (cache_persist e (trace e)); simpl.
  - destruct (persist_loop_state (chain (_fetchers e)) 0 (log_event CachePersist e))
      as (n & _ & ->).
    exists n. unfold log_event. simpl. by rewrite set_trace_set_trace, <-app_assoc.
  - by exists 0%nat.
Qed.

Lemma create_vector_embeddings_step (e : Engine) :
  analysis_step e (state_of (_create_vector_embeddings e)).
Proof.
  unfold _create_vector_embeddings. rewrite state_of_bind.
  pose proof (analyze_loop_step (chunks_to_process (top_files e)) e) as Hloop.
  destruct (analyze_loop _ e) as [e1|e1 x]; simpl in Hloop; [|done].
  destruct (persist_phase_state e1) as (n & ->).
  eapply analysis_step_trans; [done | apply analysis_step_trace].
Qed.

Lemma analyze_files_analyzed (w : Walk) (e : Engine) :
  analyzed (analyze_files w e) = analyzed e.
Proof. done. Qed.

Lemma persist_loop_raised (sources : list Source.t) (i : nat) (e e' : Engine)
    (x : exn) :
  persist_loop i sources e = Raised e' x → ∃ j, x = SourcePersistRaised j.
Proof.
  revert i e. induction sources as [|s rest IH]; intros i e; simpl; [done|].
  destruct (Source.persist s (trace e)); [apply IH|]. intros [= _ <-]. eauto.
Qed.

(** An analysis that raised from a [cache_chunk] call raised in the loop over
    the chunks. *)
Lemma create_vector_embeddings_raised (e e' : Engine) (k : nat) (chunk : Chunk) :
  _create_vector_embeddings e = Raised e' (CacheChunkRaised k chunk) →
  analyze_loop (chunks_to_process (top_files e)) e
  = Raised e' (CacheChunkRaised k chunk).
Proof.
  unfold _create_vector_embeddings.
  destruct (analyze_loop _ e) as [e1|e1 x]; simpl; [|done].
  unfold persist_cache. destruct (cache_persist e1 (trace e1)); simpl; [|done].
  by intros [j [=]]%persist_loop_raised.
Qed.

Lemma analyze_loop_app_skip (before chunks : list Chunk) (e : Engine) :
  (∀ c, c ∈ before → chunk_id c ∈ analyzed e) →
  analyze_loop (before ++ chunks) e = analyze_loop chunks e.
Proof.
  induction before as [|c before IH]; intros Hin; simpl; [done|].
  rewrite decide_True by (apply Hin; left). apply IH. intros x Hx. apply Hin. by right.
Qed.

Lemma cache_chunk_calls_app (t1 t2 : list event) :
  cache_chunk_calls (t1 ++ t2) = cache_chunk_calls t1 ++ cache_chunk_calls t2.
Proof. apply filter_app. Qed.

Lemma cache_chunk_calls_persists (i n : nat) : cache_chunk_calls (persists i n) = [].
Proof.
  unfold persists, cache_chunk_calls. revert i. induction n as [|n IH]; intros i; [done|].
  simpl. rewrite filter_cons_False by done. apply IH.
Qed.

(** ** Analysis: what the sources answered *)

Lemma dispatches_lookup (chunk : Chunk) (i n p : nat) (ev : event) :
  dispatches chunk i n !! p = Some ev →
  ev = CacheChunk (i + p) chunk ∧ (p < n)%nat.
Proof.
  unfold dispatches. rewrite list_lookup_fmap.
  destruct (seq i n !! p) as [j|] eqn:Hj; [|done].
  apply lookup_seq in Hj as [-> Hp]. by intros [= <-].
Qed.

Lemma dispatches_take (chunk : Chunk) (i n p : nat) :
  (p ≤ n)%nat → take p (dispatches chunk i n) = dispatches chunk i p.
Proof.
  intros Hp. unfold dispatches. rewrite <-fmap_take, take_seq. do 2 f_equal. lia.
Qed.

Lemma dispatches_length (chunk : Chunk) (i n : nat) :
  length (dispatches chunk i n) = n.
Proof. unfold dispatches. by rewrite length_fmap, length_seq. Qed.

(** The loop over the sources, with the answers it got: when it returns,
    every source returned; when it raises, the sources before the raising
    one returned and that one raised, each asked with the calls before it
    made. *)
Lemma add_loop_calls (sources : list Source.t) (chunk : Chunk) (i : nat)
    (e : Engine) :
  match add_loop i sources chunk e with
  | Returned _ =>
      ∀ p s, sources !! p = Some s →
        Source.cache_chunk s (trace e ++ dispatches chunk i p) chunk = true
  | Raised _ x =>
      ∃ k s, x = CacheChunkRaised (i + k) chunk
        ∧ sources !! k = Some s
        ∧ Source.cache_chunk s (trace e ++ dispatches chunk i k) chunk = false
        ∧ ∀ p s', (p < k)%nat → sources !! p = Some s' →
            Source.cache_chunk s' (trace e ++ dispatches chunk i p) chunk = true
  end.
Proof.
  revert i e. induction sources as [|source rest IH]; intros i e; simpl.
  - by intros p s ?.
  - destruct (Source.cache_chunk source (trace e) chunk) eqn:Hc.
    + specialize (IH (S i) (log_event (CacheChunk i chunk) e)).
      assert (∀ p, trace (log_event (CacheChunk i chunk) e) ++ dispatches chunk (S i) p
                   = trace e ++ dispatches chunk i (S p)) as Htrace.
      { intros p. rewrite dispatches_S. simpl. by rewrite <-app_assoc. }
      destruct (add_loop (S i) rest chunk _) as [e'|e' x].
      * intros [|p] s Hs; simpl in Hs.
        -- injection Hs as <-. unfold dispatches. simpl. by rewrite app_nil_r.
        -- rewrite <-Htrace. by apply IH.
      * destruct IH as (k & s & -> & Hk & Hraise & Hbefore).
        exists (S k), s. split_and!; [f_equal; lia | done | by rewrite <-Htrace |].
        intros [|p] s' Hp Hs'; simpl in Hs'.
        -- injection Hs' as <-. unfold dispatches. simpl. by rewrite app_nil_r.
        -- rewrite <-Htrace. apply Hbefore; [lia | done].
    + exists 0%nat, source. split_and!; [f_equal; lia | done | |].
      * unfold dispatches. simpl. by rewrite app_nil_r.
      * intros p s' Hp. lia.
Qed.

(** A source that raises ends the loop of [_add_to_collection]: the sources
    before it were called, it is the last one called, and its exception is
    the outcome. *)
Lemma add_to_collection_raises (chunk : Chunk) (e : Engine) (k : nat)
    (source : Source.t) :
  chain (_fetchers e) !! k = Some source →
  (∀ p s, (p < k)%nat → chain (_fetchers e) !! p = Some s →
     Source.cache_chunk s (trace e ++ dispatches chunk 0 p) chunk = true) →
  Source.cache_chunk source (trace e ++ dispatches chunk 0 k) chunk = false →
  _add_to_collection chunk e
  = Raised (set_trace (trace e ++ dispatches chunk 0 (S k)) e)
           (CacheChunkRaised k chunk).
Proof.
  intros Hk Hbefore Hraise.
  pose proof (add_loop_calls (chain (_fetchers e)) chunk 0 e) as Hcalls.
  pose proof (add_to_collection_outcome chunk e) as Hout.
  unfold _add_to_collection in *.
  destruct (add_loop 0 (chain (_fetchers e)) chunk e) as [e'|e' x].
  - rewrite (Hcalls k source Hk) in Hraise. done.
  - destruct Hcalls as (k' & s & -> & Hk' & Hraise' & Hbefore').
    destruct Hout as (k'' & _ & [= <-] & ->).
    assert (k' = k) as ->; [|done].
    destruct (Nat.lt_trichotomy k' k) as [Hlt|[Heq|Hgt]]; [|done|].
    + rewrite (Hbefore k' s Hlt Hk') in Hraise'. done.
    + rewrite (Hbefore' k source Hgt Hk) in Hraise. done.
Qed.

Lemma returned_in_app (sources : list Source.t) (t more : list event) (lo hi : nat) :
  (hi ≤ length t)%nat →
  returned_in sources t lo hi → returned_in sources (t ++ more) lo hi.
Proof.
  intros Hhi Hret i j chunk source Hi. rewrite lookup_app_l by lia.
  rewrite take_app_le by lia. by apply Hret.
Qed.

Lemma returned_in_join (sources : list Source.t) (t : list event) (lo mid hi : nat) :
  returned_in sources t lo mid → returned_in sources t mid hi →
  returned_in sources t lo hi.
Proof.
  intros H1 H2 i j chunk source Hi.
  destruct (decide (i < mid)%nat); [apply H1 | apply H2]; lia.
Qed.

Lemma returned_in_empty (sources : list Source.t) (t : list event) (lo : nat) :
  returned_in sources t lo lo.
Proof. intros i j chunk source Hi. lia. Qed.

(** Calls of [persist] are not calls of [cache_chunk]. *)
Lemma returned_in_persists (sources : list Source.t) (t : list event) (n lo : nat) :
  returned_in sources t lo (length t) →
  returned_in sources (t ++ CachePersist :: persists 0 n) lo
    (length (t ++ CachePersist :: persists 0 n)).
Proof.
  intros Hret. eapply (returned_in_join _ _ _ (length t `max` lo)).
  - intros i j chunk source Hi.
    destruct (decide (i < length t)%nat) as [Hlt|Hge].
    + rewrite lookup_app_l by done. rewrite take_app_le by lia.
      apply Hret. lia.
    + rewrite lookup_app_r by lia. lia.
  - intros i j chunk source Hi. rewrite lookup_app_r by lia.
    intros Hev. exfalso. apply list_elem_of_lookup_2 in Hev.
    apply elem_of_cons in Hev as [[=]|Hev].
    unfold persists in Hev. by apply list_elem_of_fmap in Hev as (? & [=] & _).
Qed.

(** The dispatch of one chunk. *)
Lemma add_to_collection_calls (chunk : Chunk) (e : Engine) :
  calls_accounted (chain (_fetchers e)) (length (trace e))
    (_add_to_collection chunk e).
Proof.
  pose proof (add_loop_calls (chain (_fetchers e)) chunk 0 e) as Hcalls.
  pose proof (add_to_collection_outcome chunk e) as Hout.
  unfold _add_to_collection, calls_accounted in *.
  assert (∀ n i j c,
            (length (trace e) ≤ i)%nat →
            (trace e ++ dispatches chunk 0 n) !! i = Some (CacheChunk j c) →
            c = chunk ∧ i = (length (trace e) + j)%nat ∧ (j < n)%nat
            ∧ take i (trace e ++ dispatches chunk 0 n)
              = trace e ++ dispatches chunk 0 j) as Hpos.
  { intros n i j c Hi. rewrite lookup_app_r by done.
    intros [[= -> ->] Hlt]%dispatches_lookup. simpl in *.
    split_and!; [done | lia | done |].
    rewrite take_app. rewrite (take_ge (trace e)) by lia.
    rewrite dispatches_take by lia. do 2 f_equal; lia. }
  destruct (add_loop 0 (chain (_fetchers e)) chunk e) as [e'|e' x]; simpl.
  - subst e'. simpl. intros i j c source Hi Hev Hsrc.
    apply Hpos in Hev as (-> & -> & Hj & ->); [|lia]. by apply Hcalls.
  - destruct Hcalls as (k & s & -> & Hk & Hraise & Hbefore).
    destruct Hout as (k' & _ & [= <-] & ->). simpl.
    split; [rewrite length_app, dispatches_length; lia|]. split.
    + exists (length (trace e) + k)%nat, s.
      split_and!; [rewrite length_app, dispatches_length; lia | | done |].
      * rewrite lookup_app_r by lia.
        replace (length (trace e) + k - length (trace e))%nat with k by lia.
        unfold dispatches. rewrite list_lookup_fmap, lookup_seq_lt by lia. done.
      * rewrite take_app, (take_ge (trace e)) by lia.
        rewrite dispatches_take by lia.
        replace (length (trace e) + k - length (trace e))%nat with k by lia. done.
    + rewrite length_app, dispatches_length. intros i j c source Hi Hev Hsrc.
      apply Hpos in Hev as (-> & -> & Hj & ->); [|lia].
      apply Hbefore; [lia | done].
Qed.

(** What was accounted for stays so when the run goes on. *)
Lemma calls_accounted_after (sources : list Source.t) (lo : nat) (e1 : Engine)
    (o : outcome) (more : list event) :
  (lo ≤ length (trace e1))%nat →
  returned_in sources (trace e1) lo (length (trace e1)) →
  trace (state_of o) = trace e1 ++ more →
  calls_accounted sources (length (trace e1)) o →
  calls_accounted sources lo o.
Proof.
  intros Hlo Hret Htrace. unfold calls_accounted.
  assert (returned_in sources (trace (state_of o)) lo (length (trace e1))) as Hret'.
  { rewrite Htrace. by apply returned_in_app. }
  destruct o as [e2|e2 x]; simpl in *.
  - intros Hrest. by eapply returned_in_join.
  - destruct x as [k chunk| |j|j];
      try (intros Hrest; by eapply returned_in_join).
    intros (Hlt & Hlast & Hrest). split_and!; [lia | done |].
    by eapply returned_in_join.
Qed.

(** The loop over the chunks. *)
Lemma analyze_loop_calls (chunks : list Chunk) (e : Engine) :
  calls_accounted (chain (_fetchers e)) (length (trace e)) (analyze_loop chunks e).
Proof.
  revert e. induction chunks as [|c rest IH]; intros e; simpl.
  - apply returned_in_empty.
  - case_decide; [apply IH|].
    pose proof (add_to_collection_calls c e) as Hadd.
    pose proof (add_to_collection_outcome c e) as Hout.
    destruct (_add_to_collection c e) as [e1|e1 x]; simpl; [|done].
    pose proof (analyze_loop_step rest (mark_analyzed (chunk_id c) e1)) as Hstep.
    apply analysis_step_prefix in Hstep as (more & Hmore).
    specialize (IH (mark_analyzed (chunk_id c) e1)).
    subst e1. simpl in *.
    eapply (calls_accounted_after _ _
              (set_trace (trace e ++ dispatches c 0 (length (chain (_fetchers e)))) e));
      simpl; [rewrite length_app; lia | done | done | done].
Qed.

Lemma persist_phase_exn (e e' : Engine) (x : exn) :
  (persist_cache e >>> λ e2, persist_loop 0 (chain (_fetchers e2)) e2) = Raised e' x →
  ∀ k chunk, x ≠ CacheChunkRaised k chunk.
Proof.
  unfold persist_cache. destruct (cache_persist e (trace e)); simpl.
  - by intros [j ->]%persist_loop_raised.
  - by intros [= _ <-].
Qed.

(** The whole pass. *)
Lemma create_vector_embeddings_calls (e : Engine) :
  calls_accounted (chain (_fetchers e)) (length (trace e))
    (_create_vector_embeddings e).
Proof.
  unfold _create_vector_embeddings.
  pose proof (analyze_loop_calls (chunks_to_process (top_files e)) e) as Hloop.
  pose proof (analyze_loop_step (chunks_to_process (top_files e)) e) as Hstep.
  destruct (analyze_loop _ e) as [e1|e1 x]; simpl in *; [|done].
  apply analysis_step_prefix in Hstep as (t1 & Ht1).
  destruct (persist_phase_state e1) as (n & Hn).
  pose proof (persist_phase_exn e1) as Hexn.
  destruct (persist_cache e1 >>> _) as [e2|e2 x]; simpl in Hn; subst e2;
    unfold calls_accounted; simpl.
  - by apply returned_in_persists.
  - destruct x as [k chunk| |j|j]; try by apply returned_in_persists.
    by destruct (Hexn _ _ eq_refl k chunk).
Qed.

(** In an accounted outcome a call that raised is the last event, and its
    exception is the outcome. *)
Lemma calls_accounted_raised (sources : list Source.t) (lo : nat) (o : outcome)
    (i k : nat) (chunk : Chunk) (source : Source.t) :
  calls_accounted sources lo o →
  (lo ≤ i)%nat →
  trace (state_of o) !! i = Some (CacheChunk k chunk) →
  sources !! k = Some source →
  Source.cache_chunk source (take i (trace (state_of o))) chunk = false →
  ∃ e', o = Raised e' (CacheChunkRaised k chunk) ∧ length (trace e') = S i.
Proof.
  unfold calls_accounted. intros Hcalls Hi Hev Hsource Hraise.
  pose proof (lookup_lt_Some _ _ _ Hev) as Hlt.
  assert (∀ hi, (i < hi)%nat →
            ¬ returned_in sources (trace (state_of o)) lo hi) as Hnot.
  { intros hi Hhi Hret. rewrite (Hret i k chunk source) in Hraise; [done | lia | done..]. }
  destruct o as [e'|e' x]; simpl in *.
  - by destruct (Hnot _ Hlt).
  - destruct x as [k' chunk'| |j|j]; try by destruct (Hnot _ Hlt).
    destruct Hcalls as (_ & (i' & source' & Hlen & Hev' & _) & Hret).
    assert (i' = i) as ->.
    { destruct (decide (i < i')%nat) as [Hlt'|]; [|lia].
      destruct (Hnot (length (trace e') - 1)%nat); [lia | done]. }
    rewrite Hev in Hev'. injection Hev' as <- <-. eauto.
Qed.

(** ** Properties of the analysis driver *)

Example faulty_analysis :
  ∃ e', analyze_codebase example_walk faulty_engine = Raised e' (CacheChunkRaised 0 chunk1)
        ∧ trace e' = [CacheChunk 0%nat chunk1].
Proof. eexists. split; vm_compute; reflexivity. Qed.

Lemma analyze_codebase_returned (w : Walk) (e e1 : Engine) :
  analyze_codebase w e = Returned e1 →
  top_files e1 = walk_top_files w
  ∧ ∀ chunk, chunk ∈ chunks_to_process (walk_top_files w) → chunk_id chunk ∈ analyzed e1.
Proof.
  unfold analyze_codebase, _create_vector_embeddings.
  destruct (analyze_loop _ (analyze_files w e)) as [ea|ea x] eqn:Hloop; simpl; [|done].
  intros Hpersist.
  pose proof (analyze_loop_step (chunks_to_process (top_files (analyze_files w e)))
                (analyze_files w e)) as (ids & t & Hea).
  rewrite Hloop in Hea. simpl in Hea.
  destruct (persist_phase_state ea) as (n & Hn). rewrite Hpersist in Hn. simpl in Hn.
  subst e1. split; [by subst ea|].
  intros chunk Hin. change (chunk_id chunk ∈ analyzed ea).
  eapply analyze_loop_returned; [exact Hloop | exact Hin].
Qed.

(** C2. After an analysis that returned, a second analysis of the same
    repository state makes no [cache_chunk] call on any source: every chunk
    id of the window is already in [chunks_already_analyzed], every chunk is
    skipped, and the run only persists. *)
Theorem second_analysis_dispatches_nothing (w : Walk) (e e1 : Engine) :
  analyze_codebase w e = Returned e1 →
  (∀ chunk, chunk ∈ chunks_to_process (walk_top_files w) →
            chunk_id chunk ∈ analyzed e1)
  ∧ (∃ n, trace (state_of (analyze_codebase w e1))
          = trace e1 ++ CachePersist :: persists 0 n)
  ∧ cache_chunk_calls (trace (state_of (analyze_codebase w e1)))
    = cache_chunk_calls (trace e1)
  ∧ analyzed (state_of (analyze_codebase w e1)) = analyzed e1.
Proof.
  intros [Hfiles Hall]%analyze_codebase_returned.
  assert (∃ n, state_of (analyze_codebase w e1)
               = set_trace (trace e1 ++ CachePersist :: persists 0 n)
                           (analyze_files w e1)) as (n & Hsecond).
  { unfold analyze_codebase, _create_vector_embeddings.
    rewrite analyze_loop_skip by done.
    destruct (persist_phase_state (analyze_files w e1)) as (n & Hn).
    exists n. exact Hn. }
  split_and!; [done | exists n; by rewrite Hsecond | | by rewrite Hsecond].
  rewrite Hsecond. simpl. rewrite cache_chunk_calls_app. simpl.
  unfold cache_chunk_calls at 2. rewrite filter_cons_False by done.
  fold (cache_chunk_calls (persists 0 n)).
  by rewrite cache_chunk_calls_persists, app_nil_r.
Qed.

Lemma second_analysis_dispatches_nothing_witness :
  ∃ e1, analyze_codebase example_walk healthy_engine = Returned e1
        ∧ cache_chunk_calls (trace e1)
          = [CacheChunk 0 chunk1; CacheChunk 1 chunk1;
             CacheChunk 0 chunk2; CacheChunk 1 chunk2]
        ∧ cache_chunk_calls (trace (state_of (analyze_codebase example_walk e1)))
          = cache_chunk_calls (trace e1).
Proof.
  destruct (analyze_codebase example_walk healthy_engine) as [e1|e1 x] eqn:Hrun;
    [|by vm_compute in Hrun].
  exists e1. split; [done|]. split.
  - vm_compute in Hrun. by injection Hrun as <-.
  - by apply (second_analysis_dispatches_nothing example_walk healthy_engine e1).
Defined.

Lemma analyze_codebase_raised (w : Walk) (e e' : Engine) (k : nat) (chunk : Chunk) :
  analyze_codebase w e = Raised e' (CacheChunkRaised k chunk) →
  ∃ before after t,
    chunks_to_process (walk_top_files w) = before ++ chunk :: after
    ∧ (∀ c, c ∈ before → chunk_id c ∈ analyzed e')
    ∧ (chunk_id chunk ∉ analyzed e')
    ∧ (k < length (chain (_fetchers e)))%nat
    ∧ trace e' = trace e ++ t ++ dispatches chunk 0 (S k)
    ∧ (∀ j c, CacheChunk j c ∈ t → chunk_id c ∈ analyzed e')
    ∧ top_files e' = walk_top_files w
    ∧ _fetchers e' = _fetchers e.
Proof.
  unfold analyze_codebase. intros Hloop%create_vector_embeddings_raised.
  pose proof (analyze_loop_step (chunks_to_process (top_files (analyze_files w e)))
                (analyze_files w e)) as Hstep.
  rewrite Hloop in Hstep. simpl in Hstep. destruct Hstep as (ids & t' & He').
  apply analyze_loop_raised in Hloop
    as (k' & chunk' & before & after & t & [= <- <-] & Hcs & Hbefore & Hchunk & Hk & Ht & Hev).
  exists before, after, t. split_and!; try done; by subst e'.
Qed.

(** The trace of an analysis that raised from a [cache_chunk] call: the
    chunk went to the sources [0..k] in order, and the raising call is the
    last event. *)
Lemma raised_dispatch_trace (w : Walk) (e e' : Engine) (k : nat) (chunk : Chunk) :
  analyze_codebase w e = Raised e' (CacheChunkRaised k chunk) →
  ∃ new, trace e' = trace e ++ new
         ∧ last new = Some (CacheChunk k chunk)
         ∧ ∀ j, CacheChunk j chunk ∈ new ↔ (j ≤ k)%nat.
Proof.
  intros (before & after & t & _ & _ & Hchunk & Hk & Ht & Hev & _)%analyze_codebase_raised.
  exists (t ++ dispatches chunk 0 (S k)). split_and!; [done | |].
  - unfold dispatches. rewrite seq_S, fmap_app, app_assoc. apply last_snoc.
  - intros j. rewrite elem_of_app. split.
    + intros [Hin|Hin]; [by apply Hev in Hin|].
      unfold dispatches in Hin. apply list_elem_of_fmap in Hin as (i & [= ->] & Hi).
      apply elem_of_seq in Hi. lia.
    + intros Hj. right. unfold dispatches. apply list_elem_of_fmap.
      exists j. split; [done|]. apply elem_of_seq. lia.
Qed.

(** C4, as the code has it.  Take any [cache_chunk] call an analysis makes:
    the event at a position [i] of the trace, past what was there before the
    run, on the source [k] of the chain.  When that source raises for the
    chunk (asked with the trace as it is at the call), the exception is the
    outcome of the analysis: the run ends there, the raising call is the last
    event of its trace, the chunk went to the sources [0..k] in order and to
    no source after [k]. *)
Theorem failing_dispatch_ends_the_run (w : Walk) (e : Engine) (i k : nat)
    (chunk : Chunk) (source : Source.t) :
  (length (trace e) ≤ i)%nat →
  trace (state_of (analyze_codebase w e)) !! i = Some (CacheChunk k chunk) →
  chain (_fetchers e) !! k = Some source →
  Source.cache_chunk source (take i (trace (state_of (analyze_codebase w e)))) chunk
  = false →
  ∃ e', analyze_codebase w e = Raised e' (CacheChunkRaised k chunk)
    ∧ length (trace e') = S i
    ∧ ∃ new, trace e' = trace e ++ new
             ∧ last new = Some (CacheChunk k chunk)
             ∧ ∀ j, CacheChunk j chunk ∈ new ↔ (j ≤ k)%nat.
Proof.
  intros Hi Hev Hsource Hraise.
  destruct (calls_accounted_raised (chain (_fetchers e)) (length (trace e))
              (analyze_codebase w e) i k chunk source)
    as (e' & Hrun & Hlen);
    [exact (create_vector_embeddings_calls (analyze_files w e)) | done..|].
  exists e'. split_and!; [done | done |]. by apply (raised_dispatch_trace w e).
Qed.

(** The second source of the chain raises on the first chunk: the event at
    position 1 of the trace.  The run ends with that exception, after two
    calls. *)
Lemma failing_dispatch_ends_the_run_witness :
  (length (trace faulty_sync_engine) ≤ 1)%nat
  ∧ trace (state_of (analyze_codebase example_walk faulty_sync_engine)) !! 1%nat
    = Some (CacheChunk 1 chunk1)
  ∧ chain (_fetchers faulty_sync_engine) !! 1%nat = Some failing_source
  ∧ ∃ e', analyze_codebase example_walk faulty_sync_engine
          = Raised e' (CacheChunkRaised 1 chunk1)
          ∧ length (trace e') = 2%nat
          ∧ ∃ new, trace e' = trace faulty_sync_engine ++ new
                   ∧ last new = Some (CacheChunk 1 chunk1)
                   ∧ ∀ j, CacheChunk j chunk1 ∈ new ↔ (j ≤ 1)%nat.
Proof.
  split; [vm_compute; lia|]. split; [vm_compute; reflexivity|].
  split; [reflexivity|].
  apply (failing_dispatch_ends_the_run example_walk faulty_sync_engine 1 1 chunk1
           failing_source).
  - vm_compute. lia.
  - vm_compute. reflexivity.
  - reflexivity.
  - reflexivity.
Defined.

(** C4, as the specification has it, fails: the first source of the chain
    raises on the first chunk and the second source is never given it. *)
Lemma failing_source_starves_the_others :
  ∃ e', analyze_codebase example_walk faulty_engine
        = Raised e' (CacheChunkRaised 0 chunk1)
        ∧ length (chain (_fetchers faulty_engine)) = 2%nat
        ∧ CacheChunk 1 chunk1 ∉ trace e'.
Proof.
  eexists. split; [vm_compute; reflexivity|]. split; [done|].
  simpl. by intros [=]%list_elem_of_singleton.
Qed.

(** C5. When the dispatch of a chunk raises, the id of that chunk is not in
    [chunks_already_analyzed]; the next analysis of the same repository
    state does not skip it: its first call is [cache_chunk] for that very
    chunk. *)
Theorem failed_chunk_is_not_marked (w : Walk) (e e' : Engine) (k : nat)
    (chunk : Chunk) :
  analyze_codebase w e = Raised e' (CacheChunkRaised k chunk) →
  (chunk_id chunk ∉ analyzed e')
  ∧ ∃ t, trace (state_of (analyze_codebase w e')) = trace e' ++ CacheChunk 0 chunk :: t.
Proof.
  intros (before & after & t & Hcs & Hbefore & Hchunk & Hk & _ & _ & _ & Hfetchers)
    %analyze_codebase_raised.
  split; [done|].
  unfold analyze_codebase, _create_vector_embeddings.
  change (top_files (analyze_files w e')) with (walk_top_files w).
  rewrite Hcs, analyze_loop_app_skip by done. simpl.
  rewrite decide_False by done. rewrite !state_of_bind.
  pose proof (add_to_collection_outcome chunk (analyze_files w e')) as Hadd.
  change (_fetchers (analyze_files w e')) with (_fetchers e') in Hadd.
  change (trace (analyze_files w e')) with (trace e') in Hadd.
  assert (∀ e1 n, e1 = set_trace (trace e' ++ dispatches chunk 0 (S n)) (analyze_files w e') →
            ∀ e2, analysis_step e1 e2 → ∃ t, trace e2 = trace e' ++ CacheChunk 0 chunk :: t)
    as Hgrow.
  { intros e1 n -> e2 (t2 & Ht2)%analysis_step_prefix. rewrite Ht2. simpl.
    rewrite dispatches_S, <-app_assoc. eauto. }
  destruct (_add_to_collection chunk (analyze_files w e')) as [e1|e1 x].
  - destruct (length (chain (_fetchers e'))) as [|n] eqn:Hlen; [rewrite Hfetchers in Hlen; lia|].
    eapply (Hgrow _ _ Hadd). simpl.
    pose proof (analyze_loop_step after (mark_analyzed (chunk_id chunk) e1)) as Hloop.
    destruct (analyze_loop after _) as [e2|e2 x2]; simpl in Hloop.
    + destruct (persist_phase_state e2) as (m & ->).
      eapply analysis_step_trans; [apply analysis_step_mark|].
      eapply analysis_step_trans; [done | apply analysis_step_trace].
    + eapply analysis_step_trans; [apply analysis_step_mark | done].
  - destruct Hadd as (n & _ & _ & Hadd).
    eapply (Hgrow _ _ Hadd), analysis_step_refl.
Qed.

Lemma failed_chunk_is_not_marked_witness :
  ∃ e', analyze_codebase example_walk faulty_sync_engine
        = Raised e' (CacheChunkRaised 1 chunk1)
        ∧ (chunk_id chunk1 ∉ analyzed e')
        ∧ ∃ t, trace (state_of (analyze_codebase example_walk e'))
               = trace e' ++ CacheChunk 0 chunk1 :: t.
Proof.
  eexists. split; [vm_compute; reflexivity|].
  eapply (failed_chunk_is_not_marked example_walk faulty_sync_engine).
  vm_compute. reflexivity.
Defined.

(** ** Querying *)

Lemma results_extend_nil (e : Engine) : results_extend [] e = e.
Proof. unfold results_extend. simpl. rewrite !app_nil_r. by destruct e. Qed.

Lemma results_extend_app (rs1 rs2 : list Result) (e : Engine) :
  results_extend rs2 (results_extend rs1 e) = results_extend (rs1 ++ rs2) e.
Proof.
  unfold results_extend, set_results. simpl. f_equal.
  - by rewrite app_assoc.
  - rewrite !length_app, seq_app, app_assoc. done.
Qed.

Lemma foldl_results_extend (rss : list (list Result)) (e : Engine) :
  foldl (λ e' result, results_extend result e') e rss = results_extend (concat rss) e.
Proof.
  revert e. induction rss as [|rs rss IH]; intros e; simpl.
  - by rewrite results_extend_nil.
  - by rewrite IH, results_extend_app.
Qed.

Lemma gather_inl (i : nat) (l : list (option (list Result))) (rss : list (list Result)) :
  gather i l = inl rss → l = Some <$> rss ∧ answered l = rss.
Proof.
  revert i rss. induction l as [|[r|] l IH]; intros i rss; simpl.
  - by intros [= <-].
  - destruct (gather (S i) l) as [rss'|k] eqn:Hg; [|done].
    intros [= <-]. destruct (IH _ _ Hg) as [-> ->]. done.
  - done.
Qed.

Lemma gather_inr (i k : nat) (l : list (option (list Result))) :
  gather i l = inr k →
  ∃ p, k = (i + p)%nat ∧ l !! p = Some None.
Proof.
  revert i. induction l as [|[r|] l IH]; intros i; simpl; [done| |].
  - destruct (gather (S i) l) as [rss'|k'] eqn:Hg; [done|].
    intros [= <-]. destruct (IH _ Hg) as (p & -> & Hp). exists (S p). split; [lia | done].
  - intros [= <-]. exists 0%nat. split; [lia | done].
Qed.

Lemma gather_some_None (i : nat) (l : list (option (list Result))) :
  None ∈ l → ∃ k, gather i l = inr k.
Proof.
  revert i. induction l as [|[r|] l IH]; intros i; simpl.
  - by intros ?%elem_of_nil.
  - intros [[=]|Hin]%elem_of_cons. destruct (IH (S i) Hin) as (k & ->). eauto.
  - eauto.
Qed.

(** The blocking sources: all of them answer and everything is accumulated,
    or one raises and only the answers before it are. *)
Lemma fetch_sync_loop_outcome (sources : list Source.t) (i : nat) (e : Engine) :
  fetch_sync_loop i sources e
  = match gather i (responses sources e) with
    | inl rss => Returned (results_extend (concat rss) e)
    | inr k =>
        Raised (results_extend (concat (answered (responses sources e))) e)
               (FetchRaised k)
    end.
Proof.
  revert i e. induction sources as [|source rest IH]; intros i e; simpl.
  - by rewrite results_extend_nil.
  - destruct (Source.fetch source (trace e) (query_string e)) as [rs|]; simpl.
    + rewrite IH.
      change (responses rest (results_extend rs e)) with (responses rest e).
      destruct (gather (S i) (responses rest e)); by rewrite results_extend_app.
    + by rewrite results_extend_nil.
Qed.

Lemma deref_fresh (h new : list Result) :
  deref (h ++ new) (seq (length h) (length new)) = new.
Proof.
  revert h. induction new as [|v new IH]; intros h; [done|].
  change (seq (length h) (length (v :: new)))
    with (length h :: seq (S (length h)) (length new)).
  rewrite deref_cons, list_lookup_middle by done.
  f_equal. specialize (IH (h ++ [v])).
  by rewrite length_app, Nat.add_1_r, <-app_assoc in IH.
Qed.

(** Case analysis on what the blocking and the background sources of [e]
    answer. *)
Ltac case_gather e :=
  destruct (gather _ (responses (sync _) e)); [destruct (gather 0 _)|].

(** [fetch] as a whole. *)
Lemma fetch_outcome (e : Engine) :
  let fresh all := set_results (objects e ++ all)
                               (seq (length (objects e)) (length all)) e in
  fetch e
  = match gather (length (async (_fetchers e))) (responses (sync (_fetchers e)) e) with
    | inr k =>
        Raised (fresh (concat (answered (responses (sync (_fetchers e)) e))))
               (FetchRaised k)
    | inl from_sync =>
        match gather 0 (responses (async (_fetchers e)) e) with
        | inr k => Raised (fresh (concat from_sync)) (FetchRaised k)
        | inl from_async => Returned (fresh (concat from_sync ++ concat from_async))
        end
    end.
Proof.
  intros fresh. unfold fetch. rewrite fetch_sync_loop_outcome.
  change (responses ?s (set_results (objects e) [] e)) with (responses s e).
  simpl.
  destruct (gather _ (responses (sync (_fetchers e)) e)) as [from_sync|k]; simpl.
  - change ((λ source, Source.fetch source (trace e) (query_string e))
              <$> async (_fetchers e)) with (responses (async (_fetchers e)) e).
    destruct (gather 0 (responses (async (_fetchers e)) e)) as [from_async|k]; [|done].
    by rewrite foldl_results_extend, results_extend_app.
  - done.
Qed.

Lemma responses_lookup (sources : list Source.t) (e : Engine) (p : nat) :
  responses sources e !! p = Some None →
  ∃ s, sources !! p = Some s ∧ Source.fetch s (trace e) (query_string e) = None.
Proof.
  unfold responses. rewrite list_lookup_fmap.
  destruct (sources !! p) as [s|]; [|done]. simpl. intros [= ?]. eauto.
Qed.

(** C10. [fetch] starts from an empty list: when it returns, the accumulated
    list denotes exactly what the sources answered to the current query, the
    blocking sources first, and every reference in it is to an object made
    by this very fetch, so nothing of an earlier fetch is in it. *)
Theorem fetch_replaces_results (e e' : Engine) :
  fetch e = Returned e' →
  ∃ from_sync from_async,
    responses (sync (_fetchers e)) e = Some <$> from_sync
    ∧ responses (async (_fetchers e)) e = Some <$> from_async
    ∧ deref (objects e') (_results e') = concat from_sync ++ concat from_async
    ∧ length (_results e') = length (concat from_sync ++ concat from_async)
    ∧ ∀ r, r ∈ _results e' → (length (objects e) ≤ r < length (objects e'))%nat.
Proof.
  rewrite fetch_outcome.
  destruct (gather _ (responses (sync _) e)) as [from_sync|k] eqn:Hsync; [|done].
  destruct (gather 0 (responses (async _) e)) as [from_async|k] eqn:Hasync; [|done].
  intros [= <-]. exists from_sync, from_async.
  apply gather_inl in Hsync as [Hsync _]. apply gather_inl in Hasync as [Hasync _].
  simpl. split_and!; [done | done | apply deref_fresh | apply length_seq |].
  intros r Hr%elem_of_seq. rewrite length_app. lia.
Qed.

Lemma fetch_replaces_results_witness :
  ∃ e1 e2,
    fetch (query "foo" healthy_engine) = Returned e1
    ∧ fetch (query "bar" e1) = Returned e2
    ∧ deref (objects e2) (_results e2)
      = [mkResult "b" [2]; mkResult "a" [3]; mkResult "a" [1]]
    ∧ ∀ r, r ∈ _results e2 → r ∉ _results e1.
Proof.
  eexists _, _. split; [vm_compute; reflexivity|].
  match goal with |- fetch ?e = Returned ?e' ∧ _ =>
    assert (fetch e = Returned e') as Hfetch by (vm_compute; reflexivity) end.
  split; [exact Hfetch|].
  destruct (fetch_replaces_results _ _ Hfetch)
    as (from_sync & from_async & Hsync & Hasync & Hderef & _ & Hfresh).
  split; [vm_compute; reflexivity|].
  intros r Hr%Hfresh Hold. simpl in Hr.
  repeat (apply elem_of_cons in Hold as [->|Hold]; [lia|]).
  by apply elem_of_nil in Hold.
Defined.

(** C6, as the specification has it, fails: with a background source that
    raises, [fetch] raises; it does not complete. *)
Lemma fetch_fails_with_a_failing_source :
  ∃ e', fetch (query "foo" faulty_engine) = Raised e' (FetchRaised 0)
        ∧ ∀ e'', fetch (query "foo" faulty_engine) ≠ Returned e''.
Proof. eexists. split; [vm_compute; reflexivity | done]. Qed.

(** C6, as the code has it.  When the [fetch] of a source raises, [fetch]
    raises with the exception of a source that raised, and what is
    accumulated by then are the answers of the blocking sources that came
    before the first blocking source that raised; nothing of the background
    sources is accumulated. *)
Theorem fetch_raises_when_a_source_raises (e : Engine) (s : Source.t) :
  s ∈ chain (_fetchers e) →
  Source.fetch s (trace e) (query_string e) = None →
  ∃ e' k s',
    fetch e = Raised e' (FetchRaised k)
    ∧ chain (_fetchers e) !! k = Some s'
    ∧ Source.fetch s' (trace e) (query_string e) = None
    ∧ deref (objects e') (_results e')
      = concat (answered (responses (sync (_fetchers e)) e)).
Proof.
  intros Hs Hnone. rewrite fetch_outcome. unfold chain in *.
  destruct (gather _ (responses (sync _) e)) as [from_sync|k] eqn:Hsync.
  - assert (None ∈ responses (async (_fetchers e)) e) as Hin.
    { apply elem_of_app in Hs as [Hs|Hs].
      - unfold responses. apply list_elem_of_fmap. by exists s.
      - apply gather_inl in Hsync as [Hsync _]. exfalso.
        assert (None ∈ responses (sync (_fetchers e)) e) as Hin.
        { unfold responses. apply list_elem_of_fmap. by exists s. }
        rewrite Hsync in Hin. by apply list_elem_of_fmap in Hin as (? & [=] & _). }
    destruct (gather_some_None 0 _ Hin) as (k & Hk). rewrite Hk.
    apply gather_inr in Hk as (p & -> & (s' & Hp & Hs')%responses_lookup).
    apply gather_inl in Hsync as [_ <-].
    eexists _, p, s'. split_and!; [done | | done | apply deref_fresh].
    by apply lookup_app_l_Some.
  - apply gather_inr in Hsync as (p & -> & (s' & Hp & Hs')%responses_lookup).
    eexists _, _, s'. split_and!; [done | | done | apply deref_fresh].
    by rewrite lookup_app_r, Nat.add_comm, Nat.add_sub by lia.
Qed.

Lemma fetch_raises_when_a_source_raises_witness :
  ∃ e' k s',
    fetch (query "foo" faulty_sync_engine) = Raised e' (FetchRaised k)
    ∧ chain (_fetchers faulty_sync_engine) !! k = Some s'
    ∧ Source.fetch s' [] "foo" = None
    ∧ deref (objects e') (_results e') = [].
Proof.
  apply (fetch_raises_when_a_source_raises (query "foo" faulty_sync_engine) failing_source).
  - simpl. apply elem_of_cons. right. apply elem_of_cons. by left.
  - reflexivity.
Defined.

(** ** The set of analyzed chunks *)

Lemma fetch_state (e : Engine) :
  ∃ h rs, state_of (fetch e) = set_results h rs e.
Proof.
  rewrite fetch_outcome. case_gather e; simpl; eauto.
Qed.

Lemma call_analyzed (m : method) (e : Engine) :
  if is_analysis m then analyzed e ⊆ analyzed (call m e)
  else analyzed (call m e) = analyzed e.
Proof.
  destruct m; cbn [call is_analysis].
  - apply (analysis_step_analyzed (analyze_files w e)), create_vector_embeddings_step.
  - apply analysis_step_analyzed, create_vector_embeddings_step.
  - pose proof (add_to_collection_outcome chunk e) as H.
    destruct (_add_to_collection chunk e) as [e'|e' x]; simpl.
    + by subst e'.
    + by destruct H as (k & _ & _ & ->).
  - done.
  - by destruct (fetch_state e) as (h & rs & ->).
  - unfold fetch_sync. by destruct (fetch_state e) as (h & rs & ->).
  - unfold Engine_get_results.
    by destruct (get_results (objects e) (_results e)) as [[h' out]|].
Qed.

(** The ids the loop records are ids of the chunks it was given. *)
Lemma analyze_loop_adds_chunk_ids (chunks : list Chunk) (e : Engine) (id : string) :
  id ∈ analyzed (state_of (analyze_loop chunks e)) →
  id ∈ analyzed e ∨ ∃ chunk, chunk ∈ chunks ∧ chunk_id chunk = id.
Proof.
  revert e. induction chunks as [|c rest IH]; intros e; simpl; [by left|].
  case_decide as Hc.
  - intros [?|(chunk & ? & ?)]%IH; [by left|]. right. exists chunk. split; [by right | done].
  - pose proof (add_to_collection_outcome c e) as Hadd.
    destruct (_add_to_collection c e) as [e1|e1 x]; simpl.
    + subst e1. intros [Hin|(chunk & ? & ?)]%IH.
      * unfold analyzed in Hin. simpl in Hin.
        apply elem_of_union in Hin as [->%elem_of_singleton|Hin]; [|by left].
        right. exists c. split; [left | done].
      * right. exists chunk. split; [by right | done].
    + destruct Hadd as (k & _ & _ & ->). by left.
Qed.

Lemma analyze_codebase_adds_chunk_ids (w : Walk) (e : Engine) (id : string) :
  id ∈ analyzed (state_of (analyze_codebase w e)) →
  id ∈ analyzed e
  ∨ ∃ chunk, chunk ∈ chunks_to_process (walk_top_files w) ∧ chunk_id chunk = id.
Proof.
  unfold analyze_codebase, _create_vector_embeddings. rewrite state_of_bind.
  pose proof (analyze_loop_adds_chunk_ids
                (chunks_to_process (top_files (analyze_files w e)))
                (analyze_files w e) id) as Hloop.
  destruct (analyze_loop _ (analyze_files w e)) as [e1|e1 x]; simpl in Hloop; [|done].
  destruct (persist_phase_state e1) as (n & ->). done.
Qed.

(** C9. [chunks_already_analyzed] only grows: whatever methods are called,
    in whatever order, and whether they return or raise, every id recorded
    before is recorded after; only the analysis pass changes the set at all,
    and what it adds are ids of chunks of the analysis window. *)
Theorem chunks_already_analyzed_only_grows (ms : list method) (m : method)
    (w : Walk) (id : string) (e : Engine) :
  analyzed e ⊆ analyzed (run ms e)
  ∧ (if is_analysis m then analyzed e ⊆ analyzed (call m e)
     else analyzed (call m e) = analyzed e)
  ∧ (if decide (id ∈ analyzed (state_of (analyze_codebase w e)))
     then id ∈ analyzed e
          ∨ ∃ chunk, chunk ∈ chunks_to_process (walk_top_files w)
                     ∧ chunk_id chunk = id
     else True).
Proof.
  split_and!; [|apply call_analyzed|].
  - revert e. induction ms as [|m' ms IH]; intros e; [done|].
    unfold run in *. simpl. etrans; [|apply IH].
    pose proof (call_analyzed m' e) as H. destruct (is_analysis m'); [done|].
    by rewrite H.
  - case_decide; [|done]. by apply analyze_codebase_adds_chunk_ids.
Qed.

(** ** The analysis window *)

(** Rounding a number of at least 54 bits: a multiple of [A = 2^s] next to
    it, at distance at most [A/2]. *)
Lemma round53_large (p : Z) :
  2 ^ 53 ≤ p < 2 ^ 104 →
  ∃ A B q, round53 p = q * A
    ∧ A * B = 2 ^ 54 ∧ 0 < A ∧ 0 < B ∧ A * 2 ^ 52 ≤ p
    ∧ (q = p / A ∨ (q = p / A + 1 ∧ A ≤ 2 * (p mod A))).
Proof.
  intros [Hlo Hhi]. unfold round53.
  destruct (Z.ltb_spec p (2 ^ 53)) as [?|_]; [lia|].
  assert (0 < p) as Hpos by lia.
  pose proof (Z.log2_spec p Hpos) as [Hlog_lo Hlog_hi].
  assert (53 ≤ Z.log2 p) as Hlog53 by (apply Z.log2_le_pow2; lia).
  assert (Z.log2 p < 104) as Hlog104 by (apply Z.log2_lt_pow2; lia).
  set (s := Z.log2 p - 52) in *.
  assert (1 ≤ s ≤ 51) as Hs by lia.
  exists (2 ^ s), (2 ^ (54 - s)).
  rewrite Z.shiftr_div_pow2, Z.land_ones, Z.shiftl_mul_pow2, Z.shiftl_mul_pow2 by lia.
  assert (0 < 2 ^ s) as HA by (apply Z.pow_pos_nonneg; lia).
  assert (0 < 2 ^ (54 - s)) as HB by (apply Z.pow_pos_nonneg; lia).
  assert (2 ^ s * 2 ^ (54 - s) = 2 ^ 54) as HAB.
  { rewrite <-Z.pow_add_r by lia. f_equal. lia. }
  assert (2 ^ s * 2 ^ 52 ≤ p) as Hscale.
  { rewrite <-Z.pow_add_r by lia. replace (s + 52) with (Z.log2 p) by lia. done. }
  assert (2 * 2 ^ (s - 1) = 2 ^ s) as Hhalf.
  { rewrite <-(Z.pow_succ_r 2 (s - 1)) by lia. f_equal. lia. }
  eexists. split; [reflexivity|]. split_and!; try done.
  destruct (_ || _) eqn:Hup; [right | by left]. split; [done|].
  apply orb_true_iff in Hup as [Hup|[Hup _]%andb_true_iff]; lia.
Qed.

(** For every length a list can have, [int(n * 0.2)] is [n // 5]. *)
Lemma int_times_0_2 (n : Z) :
  0 ≤ n < 2 ^ 52 → int_of_float (times_0_2 n) = n / 5.
Proof.
  intros Hn. unfold times_0_2, int_of_float, float_0_2_exp.
  assert (round53 n = n) as ->.
  { unfold round53. destruct (Z.ltb_spec n (2 ^ 53)); lia. }
  rewrite Z.shiftr_div_pow2 by lia. unfold float_0_2_num.
  set (p := n * 3602879701896397).
  assert (5 * p = n * (2 ^ 54 + 1)) as H5 by (unfold p; lia).
  clearbody p.
  pose proof (Z.div_mod n 5 ltac:(lia)) as Hdiv.
  pose proof (Z.mod_pos_bound n 5 ltac:(lia)) as Hmod.
  set (k := n / 5) in *. set (j := n mod 5) in *. clearbody k j.
  assert (p < 2 ^ 104) as Hp104 by lia.
  symmetry. apply Z.div_unique_pos with (r := round53 p - k * 2 ^ 54); [|lia].
  destruct (Z.lt_ge_cases p (2 ^ 53)) as [Hsmall|Hlarge].
  - assert (round53 p = p) as ->.
    { unfold round53. destruct (Z.ltb_spec p (2 ^ 53)); lia. }
    lia.
  - destruct (round53_large p) as (A & B & q & -> & HAB & HA & HB & Hscale & Hq);
      [lia|].
    pose proof (Z.div_mod p A ltac:(lia)) as HpA.
    pose proof (Z.mod_pos_bound p A ltac:(lia)) as HrA.
    assert (k * B ≤ p / A) as Hlower.
    { apply Z.div_le_lower_bound; [lia|].
      replace (A * (k * B)) with (k * 2 ^ 54) by (rewrite <-HAB; ring). lia. }
    set (d := p / A) in *. set (r := p mod A) in *. clearbody d r.
    assert (k * 2 ^ 54 = k * B * A) as Hk by (rewrite <-HAB; ring).
    assert (A ≤ 2 ^ 52) as HA52 by nia.
    assert (q * A ≤ p + A) as Hup.
    { destruct Hq as [->|[-> Hr]]; nia. }
    assert (2 * (q * A) ≤ 2 * p + A) as Hup2.
    { destruct Hq as [->|[-> Hr]]; nia. }
    split.
    + destruct Hq as [->|[-> _]]; nia.
    + lia.
Qed.

(** C3, as the specification has it, fails: with 201 ranked files the code
    takes [int(40.2) = 40] files, the ceiling would take 41. *)
Lemma window_is_not_the_ceiling :
  files_to_analyze (ranked_files 201) = take 40 (ranked_files 201)
  ∧ files_to_analyze (ranked_files 201)
    ≠ take (Z.to_nat (window_with_ceiling 201)) (ranked_files 201).
Proof.
  assert (files_to_analyze (ranked_files 201) = take 40 (ranked_files 201)) as Hcode
    by (vm_compute; reflexivity).
  split; [done|]. rewrite Hcode. intros Heq%(f_equal length).
  vm_compute in Heq. discriminate.
Qed.

(** C3, as the code has it.  The analysis enumerates the chunks of exactly
    the first [max(40, floor(0.2 * total))] ranked files, capped at the
    number of files there are: all of them when there are at most 40 (so
    all 10 of 10), and 200 of 1000. *)
Theorem analysis_window (files : list File) :
  Z.of_nat (length files) < 2 ^ 52 →
  files_to_analyze files
  = take (Z.to_nat (Z.max 40 (Z.of_nat (length files) / 5))) files
  ∧ chunks_to_process files
    = concat (get_chunks <$>
                take (Z.to_nat (Z.max 40 (Z.of_nat (length files) / 5))) files)
  ∧ Z.of_nat (length (files_to_analyze files))
    = Z.min (Z.of_nat (length files)) (Z.max 40 (Z.of_nat (length files) / 5))
  ∧ (if decide (length files ≤ 40)%nat then files_to_analyze files = files
     else length (files_to_analyze files) = (40 `max` (length files / 5))%nat)
  ∧ (if decide (length files = 10%nat) then files_to_analyze files = files
     else if decide (length files = 1000%nat)
          then length (files_to_analyze files) = 200%nat
          else True).
Proof.
  intros Hlen.
  assert (files_to_analyze files
          = take (Z.to_nat (Z.max 40 (Z.of_nat (length files) / 5))) files) as Hwin.
  { unfold files_to_analyze, minimum_files_to_analyze.
    rewrite int_times_0_2 by lia. done. }
  assert (Z.of_nat (length files / 5) = Z.of_nat (length files) / 5) as Hdiv
    by (by rewrite Nat2Z.inj_div).
  pose proof (Z.div_mod (Z.of_nat (length files)) 5 ltac:(lia)) as Hdm.
  pose proof (Z.mod_pos_bound (Z.of_nat (length files)) 5 ltac:(lia)) as Hmod.
  split_and!.
  - done.
  - unfold chunks_to_process. by rewrite Hwin.
  - rewrite Hwin, length_take. lia.
  - case_decide as H40.
    + rewrite Hwin. apply take_ge. lia.
    + rewrite Hwin, length_take. lia.
  - case_decide as H10; [|case_decide as H1000; [|done]].
    + rewrite Hwin. apply take_ge. lia.
    + rewrite Hwin, length_take, H1000. reflexivity.
Qed.

Lemma analysis_window_witness :
  Z.of_nat (length (ranked_files 1000)) < 2 ^ 52
  ∧ length (files_to_analyze (ranked_files 1000)) = 200%nat
  ∧ files_to_analyze (ranked_files 10) = ranked_files 10.
Proof.
  assert (Z.of_nat (length (ranked_files 1000)) < 2 ^ 52) as H1000
    by (vm_compute; reflexivity).
  assert (Z.of_nat (length (ranked_files 10)) < 2 ^ 52) as H10
    by (vm_compute; reflexivity).
  split; [exact H1000|]. split.
  - exact (proj2 (proj2 (proj2 (proj2 (analysis_window (ranked_files 1000) H1000))))).
  - exact (proj2 (proj2 (proj2 (proj2 (analysis_window (ranked_files 10) H10))))).
Defined.

(** ** Project identity *)

Lemma list_ascii_of_string_app (s t : string) :
  String.list_ascii_of_string (s +:+ t)
  = String.list_ascii_of_string s ++ String.list_ascii_of_string t.
Proof. induction s as [|c s IH]; simpl; [done | by rewrite IH]. Qed.

Lemma string_app_inv_tail (s1 s2 t : string) :
  s1 +:+ t = s2 +:+ t → s1 = s2.
Proof.
  intros Heq%(f_equal String.list_ascii_of_string).
  rewrite !list_ascii_of_string_app in Heq. apply app_inv_tail in Heq.
  apply (f_equal String.string_of_list_ascii) in Heq.
  by rewrite !String.string_of_list_ascii_of_string in Heq.
Qed.

(** The hashed text determines the version. *)
Lemma project_text_version (v1 v2 : Z) (normalized_path : string) :
  project_text v1 normalized_path = project_text v2 normalized_path → v1 = v2.
Proof.
  unfold project_text. intros Heq.
  do 2 apply String.app_inj in Heq.
  apply string_app_inv_tail in Heq. by apply pretty_Z_inj in Heq.
Qed.

Lemma path_join_inj (p : Path) (c1 c2 : string) :
  path_join p c1 = path_join p c2 → c1 = c2.
Proof. unfold path_join. by intros [= ?]%app_inv_head. Qed.

(** The test vectors of FIPS 180-4. *)
Example sha256_abc :
  SHA256.hexdigest "abc"
  = "ba7816bf8f01cfea414140de5dae2223b00361a396177a9cb410ff61f20015ad".
Proof. vm_compute. reflexivity. Qed.

Example sha256_two_blocks :
  SHA256.hexdigest "abcdbcdecdefdefgefghfghighijhijkijkljklmklmnlmnomnopnopq"
  = "248d6a61d20638b8e5c026930c3e6039a33ce45964ff2167f6ecedd419db06c1".
Proof. vm_compute. reflexivity. Qed.

Example project_hash_example :
  _get_project_hash example_env CACHE_FORMAT_VERSION "/home/user/repo"
  = "4ac785ac0a9229140658795a51646c69405d0c3f5c07c0abd5957de7cb9df36b".
Proof. vm_compute. reflexivity. Qed.

(** The cache folder and the cache file of an engine are told apart by the
    project hash alone: for one environment two locations are the same
    exactly when the two digests are.  Whether two different texts, such as
    those of two format versions of one path, can have one digest is a
    question about SHA-256 itself. *)
Lemma cache_location_by_hash (env : Env) (path1 path2 : string) (v1 v2 : Z) :
  (_get_cache_folder env v1 path1 = _get_cache_folder env v2 path2
   ↔ _get_project_hash env v1 path1 = _get_project_hash env v2 path2)
  ∧ (cache_file env v1 path1 = cache_file env v2 path2
     ↔ _get_project_hash env v1 path1 = _get_project_hash env v2 path2).
Proof.
  unfold cache_file, _get_cache_folder. split; (split; [|by intros ->]).
  - by intros ?%path_join_inj.
  - unfold path_join. intros Heq%app_inj_tail. destruct Heq as [Heq _].
    by apply app_inj_tail in Heq as [_ ?].
Qed.

(** The versions 15 and 16 of one repository have different cache files. *)
Example cache_file_versions_15_16 :
  cache_file example_env 15 "/home/user/repo"
  = ["/"; "home"; "user"; ".cache"; "codector";
     "4ac785ac0a9229140658795a51646c69405d0c3f5c07c0abd5957de7cb9df36b"; "cache"]
  ∧ cache_file example_env 16 "/home/user/repo"
    ≠ cache_file example_env 15 "/home/user/repo".
Proof. split; [vm_compute; reflexivity|]. vm_compute. discriminate. Qed.

(** ** The accumulated list in every state the engine can reach *)

Lemma results_wf_fresh (e : Engine) (new : list Result) :
  results_wf (set_results (objects e ++ new)
                          (seq (length (objects e)) (length new)) e).
Proof.
  split; simpl; [apply NoDup_seq|].
  intros r Hr%elem_of_seq. rewrite length_app. lia.
Qed.

Lemma results_wf_analysis_step (e e' : Engine) :
  analysis_step e e' → results_wf e → results_wf e'.
Proof. by intros (ids & t & ->). Qed.

(** Every method keeps the list well formed: [fetch] fills it with objects
    it has just created, the other methods do not touch it. *)
Lemma call_results_wf (m : method) (e : Engine) :
  results_wf e → results_wf (call m e).
Proof.
  intros Hwf. destruct m; cbn [call].
  - eapply results_wf_analysis_step; [apply create_vector_embeddings_step | done].
  - eapply results_wf_analysis_step; [apply create_vector_embeddings_step | done].
  - eapply results_wf_analysis_step; [apply add_to_collection_step | done].
  - done.
  - rewrite fetch_outcome. case_gather e; apply results_wf_fresh.
  - unfold fetch_sync. rewrite fetch_outcome. case_gather e; apply results_wf_fresh.
  - unfold Engine_get_results, get_results.
    destruct (merge_loop (objects e) [] (_results e)) as [[h' merged]|] eqn:Hloop;
      [|done].
    apply merge_loop_frame in Hloop as (Hlen & _). destruct Hwf as [Hnd Halloc].
    split; simpl; [done|]. intros r Hr. rewrite Hlen. by apply Halloc.
Qed.

Lemma run_results_wf (ms : list method) (e : Engine) :
  results_wf e → results_wf (run ms e).
Proof.
  revert e. induction ms as [|m ms IH]; intros e Hwf; [done|].
  unfold run in *. simpl. by apply IH, call_results_wf.
Qed.

(** From construction on, whatever is called: [get_results] finds distinct
    live objects, returns, and returns the merge by path of what the list
    denotes. *)
Lemma reachable_get_results (ms : list method) (path : string)
    (loaded : RepositoryData) (cache_persist : list event → bool)
    (fetchers : Fetchers) :
  let e := run ms (init path loaded cache_persist fetchers) in
  results_wf e
  ∧ ∃ e' out, Engine_get_results e = Some (e', out)
              ∧ deref (objects e') out
                = merged_by_path (deref (objects e) (_results e)).
Proof.
  intros e.
  assert (results_wf e) as Hwf.
  { apply run_results_wf. split; simpl; [apply NoDup_nil_2 | by intros ? ?%elem_of_nil]. }
  split; [done|]. destruct Hwf as [Hnd Halloc].
  destruct (merge_loop_refines _ _ Hnd Halloc) as (h' & m & Hloop & _ & _ & Hrefine & _).
  unfold Engine_get_results, get_results. rewrite Hloop.
  eexists _, _. split; [done|]. simpl.
  by rewrite Hrefine, merge_values_merged_by_path.
Qed.

(** ** More on [get_results]: any list, repeated objects included *)

(** One iteration, with what decides the branch. *)
Lemma merge_step_cases (h h' : store) (m m' : dict) (r : loc) :
  merge_step h m r = Some (h', m') →
  ∃ item, h !! r = Some item
    ∧ ((∃ r0 entry, dict_get m (path item) = Some r0 ∧ h !! r0 = Some entry
                    ∧ h' = <[r0 := extend entry item]> h ∧ m' = m)
       ∨ (dict_get m (path item) = None ∧ h' = h ∧ m' = m ++ [(path item, r)])).
Proof.
  unfold merge_step. destruct (h !! r) as [item|]; [|done].
  intros Hstep. exists item. split; [done|].
  destruct (dict_get m (path item)) as [r0|] eqn:Hget.
  - destruct (h !! r0) as [entry|] eqn:Hr0; [|done].
    injection Hstep as <- <-. left. by exists r0, entry.
  - injection Hstep as <- <-. by right.
Qed.

Lemma dict_get_is_Some (m : dict) (k : string) :
  is_Some (dict_get m k) ↔ k ∈ dict_keys m.
Proof.
  destruct (dict_get m k) as [v|] eqn:Hget.
  - split; [intros _|by eauto]. apply dict_get_Some in Hget. unfold dict_keys.
    apply list_elem_of_fmap. by exists (k, v).
  - apply dict_get_None in Hget. split; [by intros [? [=]] | done].
Qed.

Lemma NoDup_omap_inv {A B} (f : A → option B) (l : list A) :
  (∀ x, x ∈ l → is_Some (f x)) → NoDup (omap f l) → NoDup l.
Proof.
  induction l as [|x l IH]; intros Hsome; [constructor|].
  destruct (Hsome x) as [y Hy]; [left|]. simpl. rewrite Hy.
  intros [Hnotin Hnd]%NoDup_cons. constructor.
  - intros Hin. apply Hnotin. apply list_elem_of_omap. eauto.
  - apply IH; [|done]. intros z Hz. apply Hsome. by right.
Qed.

(** The dictionary after the loop, for any list: its keys are the paths of
    the list in order of first appearance, its values are a subsequence of
    the list, and each value carries its key as path. *)
Lemma merge_loop_dict (h : store) (results : list loc) (h' : store) (m : dict) :
  merge_loop h [] results = Some (h', m) →
  dict_keys m = first_seen (omap (path_at h) results)
  ∧ dict_keys m = omap (path_at h) (dict_values m)
  ∧ (∀ v, v ∈ dict_values m → is_Some (path_at h v))
  ∧ dict_values m `sublist_of` results.
Proof.
  revert h' m. induction results as [|r results IH] using rev_ind; intros h' m.
  - intros [= <- <-]. split_and!; try done. by intros ? ?%elem_of_nil.
  - rewrite merge_loop_snoc.
    destruct (merge_loop h [] results) as [[h1 m1]|] eqn:Hloop; [|done].
    destruct (IH _ _ eq_refl) as (Hkeys & Hvals & Hsome & Hsub).
    pose proof (merge_loop_frame _ _ _ _ _ Hloop) as (_ & Hpath & _).
    intros (item & Hitem & Hcase)%merge_step_cases.
    assert (path_at h r = Some (path item)) as Hr.
    { rewrite <-Hpath. apply path_at_Some. eauto. }
    rewrite omap_app. simpl. rewrite Hr, first_seen_snoc.
    assert (path item ∈ omap (path_at h) results ↔ path item ∈ dict_keys m1) as Hin.
    { by rewrite Hkeys, first_seen_elem. }
    destruct Hcase as [(r0 & entry & Hget & _ & _ & ->)|(Hget & _ & ->)].
    + rewrite decide_True by (apply Hin, dict_get_is_Some; eauto).
      split_and!; try done. by apply sublist_inserts_r.
    + rewrite decide_False by (by rewrite Hin, <-dict_get_None).
      rewrite dict_keys_snoc, dict_values_snoc, omap_app. simpl. rewrite Hr.
      split_and!.
      * by rewrite Hkeys.
      * by rewrite Hvals.
      * intros v [Hv|Hv%list_elem_of_singleton]%elem_of_app; [by apply Hsome|].
        subst v. by rewrite Hr.
      * by apply sublist_app.
Qed.

(** X1. Whatever the accumulated list, repeated objects included: the paths
    of the entries [get_results] returns are the paths of the list in order
    of first appearance, without repetition; the entries are a subsequence
    of the list and no entry is returned twice. *)
Theorem get_results_entries (h h' : store) (results out : list loc) :
  get_results h results = Some (h', out) →
  omap (path_at h') out = first_seen (omap (path_at h) results)
  ∧ NoDup (omap (path_at h') out)
  ∧ length (omap (path_at h') out) = length out
  ∧ out `sublist_of` results
  ∧ NoDup out.
Proof.
  unfold get_results.
  destruct (merge_loop h [] results) as [[h1 m]|] eqn:Hloop; [|done].
  intros [= <- <-].
  pose proof (merge_loop_frame _ _ _ _ _ Hloop) as (_ & Hpath & _).
  destruct (merge_loop_dict _ _ _ _ Hloop) as (Hkeys & Hvals & Hsome & Hsub).
  assert (omap (path_at h1) (dict_values m) = dict_keys m) as Hpaths.
  { rewrite Hvals. apply list_omap_ext, Forall2_same_length_lookup_2; [done|].
    intros i x y Hx Hy. assert (x = y) as -> by congruence. apply Hpath. }
  rewrite Hpaths, <-Hkeys. split_and!; try done.
  - rewrite Hkeys. apply first_seen_NoDup.
  - unfold dict_keys, dict_values. by rewrite !length_fmap.
  - apply (NoDup_omap_inv (path_at h)); [done|].
    rewrite <-Hvals, Hkeys. apply first_seen_NoDup.
Qed.

Lemma get_results_entries_witness :
  get_results [mkResult "a" [1]; mkResult "b" [2]]
              [1%nat; 0%nat; 1%nat; 0%nat; 0%nat]
  = Some ([mkResult "a" [1; 1; 1; 1]; mkResult "b" [2; 2]], [1%nat; 0%nat])
  ∧ [1%nat; 0%nat] `sublist_of` [1%nat; 0%nat; 1%nat; 0%nat; 0%nat].
Proof.
  split; [reflexivity|].
  exact (proj1 (proj2 (proj2 (proj2
    (get_results_entries [mkResult "a" [1]; mkResult "b" [2]] _
       [1; 0; 1; 0; 0]%nat [1; 0]%nat eq_refl))))).
Defined.

Lemma grown_refl (v : Result) : grown v v.
Proof. exists []. rewrite app_nil_r. by destruct v. Qed.

Lemma grown_trans (v1 v2 v3 : Result) : grown v1 v2 → grown v2 v3 → grown v1 v3.
Proof.
  intros [a1 ->] [a2 ->]. exists (a1 ++ a2). simpl. by rewrite app_assoc.
Qed.

Lemma merge_step_grows (h h' : store) (m m' : dict) (r x : loc) (v : Result) :
  merge_step h m r = Some (h', m') → h !! x = Some v →
  ∃ v', h' !! x = Some v' ∧ grown v v'.
Proof.
  intros (item & Hitem & [(r0 & entry & _ & Hentry & -> & _)|(_ & -> & _)])%merge_step_cases Hx.
  - destruct (decide (x = r0)) as [->|Hne].
    + rewrite list_lookup_insert_eq by (by eapply lookup_lt_Some).
      assert (entry = v) as -> by congruence.
      eexists. split; [done|]. by exists (payload item).
    + rewrite list_lookup_insert_ne by done. eauto using grown_refl.
  - eauto using grown_refl.
Qed.

Lemma merge_loop_grows (results : list loc) (h h' : store) (m m' : dict) (x : loc)
    (v : Result) :
  merge_loop h m results = Some (h', m') → h !! x = Some v →
  ∃ v', h' !! x = Some v' ∧ grown v v'.
Proof.
  revert h m v. induction results as [|r results IH]; intros h m v; simpl.
  - intros [= <- <-] Hx. eauto using grown_refl.
  - destruct (merge_step h m r) as [[h1 m1]|] eqn:Hstep; [|done].
    intros Hloop Hx.
    destruct (merge_step_grows _ _ _ _ _ _ _ Hstep Hx) as (v1 & Hx1 & Hg1).
    destruct (IH _ _ _ Hloop Hx1) as (v' & Hx' & Hg'). eauto using grown_trans.
Qed.

(** X2. [get_results] never overwrites, truncates or removes anything: every
    result object of the store, entry or not and whatever the list, keeps
    its path and has afterwards the payload it had before, possibly
    followed by more. *)
Theorem get_results_payloads_grow (h h' : store) (results out : list loc)
    (x : loc) (v : Result) :
  get_results h results = Some (h', out) →
  h !! x = Some v →
  ∃ added, h' !! x = Some (mkResult (path v) (payload v ++ added))
           ∧ (x ∉ out → added = []).
Proof.
  unfold get_results.
  destruct (merge_loop h [] results) as [[h1 m]|] eqn:Hloop; [|done].
  intros [= <- <-] Hx.
  destruct (merge_loop_grows _ _ _ _ _ _ _ Hloop Hx) as (v' & Hx' & added & ->).
  exists added. split; [done|]. intros Hout.
  apply merge_loop_frame in Hloop as (_ & _ & Hframe & _).
  rewrite Hframe, Hx in Hx' by done. injection Hx' as Heq.
  destruct v as [p pl]. simpl in Heq. injection Heq as Heq.
  rewrite <-(app_nil_r pl) in Heq at 1. by apply app_inv_head in Heq.
Qed.

Lemma get_results_payloads_grow_witness :
  ∃ h' out added,
    get_results example_store example_results = Some (h', out)
    ∧ h' !! 0%nat = Some (mkResult "a" ([1] ++ added))
    ∧ h' !! 2%nat = Some (mkResult "a" [3]).
Proof.
  destruct (get_results_payloads_grow example_store _ example_results _ 0%nat
              (mkResult "a" [1]) eq_refl eq_refl) as (added & Hadded & _).
  eexists _, _, added. split; [reflexivity|]. split; [exact Hadded | reflexivity].
Defined.

(** Merging a value into the entries adds its payload and nothing else. *)
Lemma merge_into_payloads (acc : list Result) (r : Result) :
  concat (payload <$> merge_into acc r) ≡ₚ concat (payload <$> acc) ++ payload r.
Proof.
  induction acc as [|e acc IH]; simpl; [by rewrite app_nil_r|].
  case_decide; simpl.
  - rewrite <-!app_assoc. f_equiv. apply Permutation_app_comm.
  - by rewrite IH, app_assoc.
Qed.

Lemma merge_values_payloads (rs acc : list Result) :
  concat (payload <$> merge_values acc rs)
  ≡ₚ concat (payload <$> acc) ++ concat (payload <$> rs).
Proof.
  unfold merge_values. revert acc. induction rs as [|r rs IH]; intros acc; simpl.
  - by rewrite app_nil_r.
  - by rewrite IH, merge_into_payloads, <-app_assoc.
Qed.

(** X3. Over distinct live result objects the merge loses and duplicates
    nothing: the payload items of the entries returned are, up to order,
    the payload items of the whole accumulated list. *)
Theorem get_results_conserves_payloads (h : store) (results : list loc) :
  NoDup results →
  (∀ r, r ∈ results → (r < length h)%nat) →
  ∃ h' out,
    get_results h results = Some (h', out)
    ∧ concat (payload <$> deref h' out) ≡ₚ concat (payload <$> deref h results)
    ∧ length (concat (payload <$> deref h' out))
      = length (concat (payload <$> deref h results)).
Proof.
  intros Hnd Halloc.
  destruct (merge_loop_refines h results Hnd Halloc)
    as (h' & m & Hloop & _ & _ & Hrefine & _).
  exists h', (dict_values m). unfold get_results. rewrite Hloop.
  assert (concat (payload <$> deref h' (dict_values m))
          ≡ₚ concat (payload <$> deref h results)) as Hperm.
  { rewrite Hrefine. apply (merge_values_payloads _ []). }
  split_and!; [done | done | by rewrite Hperm].
Qed.

Lemma get_results_conserves_payloads_witness :
  ∃ h' out,
    get_results example_store example_results = Some (h', out)
    ∧ concat (payload <$> deref h' out) ≡ₚ [1; 2; 3].
Proof.
  destruct (get_results_conserves_payloads example_store example_results)
    as (h' & out & Hget & Hperm & _).
  - unfold example_results. repeat (apply NoDup_cons; split);
      [by intros [[=]|[[=]|?%elem_of_nil]%elem_of_cons]%elem_of_cons
      |by intros [[=]|?%elem_of_nil]%elem_of_cons
      |by intros ?%elem_of_nil | apply NoDup_nil_2].
  - intros r Hr. unfold example_results in Hr. simpl.
    repeat (apply elem_of_cons in Hr as [->|Hr]; [lia|]). by apply elem_of_nil in Hr.
  - exists h', out. split; [done|]. exact Hperm.
Defined.

(** ** More on [fetch] *)

Lemma first_seen_length (ps : list string) :
  (length (first_seen ps) ≤ length ps)%nat.
Proof.
  induction ps as [|p ps IH]; simpl; [done|].
  pose proof (length_filter (λ q, q ≠ p) (first_seen ps)). lia.
Qed.

(** X4. [fetch] followed by [get_results]: when [fetch] returns,
    [get_results] returns too, and its entries are the merge by path of what
    the blocking sources answered followed by what the background sources
    answered; there are as many entries as distinct paths among the
    answers. *)
Theorem fetch_then_get_results (e e1 : Engine) :
  fetch e = Returned e1 →
  ∃ from_sync from_async e2 out,
    responses (sync (_fetchers e)) e = Some <$> from_sync
    ∧ responses (async (_fetchers e)) e = Some <$> from_async
    ∧ Engine_get_results e1 = Some (e2, out)
    ∧ deref (objects e2) out
      = merged_by_path (concat from_sync ++ concat from_async)
    ∧ length out
      = length (first_seen (path <$> concat from_sync ++ concat from_async))
    ∧ (length out ≤ length (concat from_sync ++ concat from_async))%nat.
Proof.
  rewrite fetch_outcome.
  destruct (gather _ (responses (sync _) e)) as [from_sync|k] eqn:Hsync; [|done].
  destruct (gather 0 (responses (async _) e)) as [from_async|k] eqn:Hasync; [|done].
  intros [= <-]. apply gather_inl in Hsync as [Hsync _].
  apply gather_inl in Hasync as [Hasync _].
  set (all := concat from_sync ++ concat from_async).
  destruct (merge_loop_refines (objects e ++ all) (seq (length (objects e)) (length all)))
    as (h' & m & Hloop & _ & _ & Hrefine & Hlive & _).
  { apply NoDup_seq. }
  { intros r Hr%elem_of_seq. rewrite length_app. lia. }
  rewrite deref_fresh, merge_values_merged_by_path in Hrefine.
  exists from_sync, from_async. eexists _, (dict_values m).
  unfold Engine_get_results, get_results. simpl. rewrite Hloop.
  assert (length (dict_values m) = length (first_seen (path <$> all))) as Hlen.
  { rewrite <-Hlive, Hrefine. unfold merged_by_path. by rewrite length_fmap. }
  split_and!; try done.
  rewrite Hlen. etrans; [apply first_seen_length|]. by rewrite length_fmap.
Qed.

Lemma fetch_then_get_results_witness :
  ∃ e1 e2 out,
    fetch (query "foo" healthy_engine) = Returned e1
    ∧ Engine_get_results e1 = Some (e2, out)
    ∧ deref (objects e2) out = [mkResult "b" [2]; mkResult "a" [3; 1]].
Proof.
  assert (∃ e1, fetch (query "foo" healthy_engine) = Returned e1) as (e1 & Hfetch).
  { eexists. vm_compute. reflexivity. }
  destruct (fetch_then_get_results _ _ Hfetch)
    as (from_sync & from_async & e2 & out & Hsync & Hasync & Hget & Hderef & _).
  exists e1, e2, out. split_and!; [done | done |]. rewrite Hderef.
  assert (from_sync = [[mkResult "b" [2]; mkResult "a" [3]]]) as ->
    by (apply (inj (fmap Some)); symmetry; exact Hsync).
  assert (from_async = [[mkResult "a" [1]]]) as ->
    by (apply (inj (fmap Some)); symmetry; exact Hasync).
  reflexivity.
Defined.

Lemma gather_inr_first (i k : nat) (l : list (option (list Result))) :
  gather i l = inr k →
  ∃ p, k = (i + p)%nat ∧ l !! p = Some None
       ∧ ∀ q, (q < p)%nat → ∃ rs, l !! q = Some (Some rs).
Proof.
  revert i. induction l as [|[r|] l IH]; intros i; simpl; [done| |].
  - destruct (gather (S i) l) as [rss'|k'] eqn:Hg; [done|].
    intros [= <-]. destruct (IH _ Hg) as (p & -> & Hp & Hbefore).
    exists (S p). split_and!; [lia | done |].
    intros [|q] Hq; [eauto|]. apply Hbefore. lia.
  - intros [= <-]. exists 0%nat. split_and!; [lia | done | intros; lia].
Qed.

Lemma responses_lookup_Some (sources : list Source.t) (e : Engine) (p : nat)
    (r : option (list Result)) :
  responses sources e !! p = Some r ↔
  ∃ s, sources !! p = Some s ∧ Source.fetch s (trace e) (query_string e) = r.
Proof.
  unfold responses. rewrite list_lookup_fmap.
  destruct (sources !! p) as [s|]; simpl; [|by split; [|intros (? & ? & ?)]].
  split; [intros [= ?]; eauto | by intros (? & [= <-] & ->)].
Qed.

(** X5. Which exception [fetch] raises.  The source at the position named
    by the exception raised, and it is the first one in the order blocking
    sources, then background sources: a blocking source that raises hides
    every background source that raises, and among sources of the same kind
    the first in the list wins. *)
Theorem fetch_exception_precedence (e e' : Engine) (k : nat) :
  fetch e = Raised e' (FetchRaised k) →
  let n := length (async (_fetchers e)) in
  (∃ s, chain (_fetchers e) !! k = Some s
        ∧ Source.fetch s (trace e) (query_string e) = None)
  ∧ ∀ j s, chain (_fetchers e) !! j = Some s →
           Source.fetch s (trace e) (query_string e) = None →
           if decide (n ≤ k)%nat then (j < n ∨ k ≤ j)%nat
           else (k ≤ j < n)%nat.
Proof.
  intros Hfetch n. rewrite fetch_outcome in Hfetch. unfold chain.
  destruct (gather _ (responses (sync _) e)) as [from_sync|k'] eqn:Hsync.
  - destruct (gather 0 (responses (async _) e)) as [from_async|k''] eqn:Hasync;
      [done|]. injection Hfetch as _ ->.
    apply gather_inl in Hsync as [Hsync _].
    apply gather_inr_first in Hasync as (p & -> & Hp & Hbefore). simpl.
    pose proof Hp as (s & Hs & Hnone)%responses_lookup_Some.
    pose proof (lookup_lt_Some _ _ _ Hs) as Hlt. fold n in Hlt.
    split; [exists s; by rewrite lookup_app_l|].
    intros j s' Hj Hnone'. rewrite decide_False by lia.
    destruct (decide (j < n)%nat) as [Hjn|Hjn].
    + split; [|done]. destruct (decide (p ≤ j)%nat); [done|].
      destruct (Hbefore j ltac:(lia)) as (rs & (s'' & Hs'' & Hrs)%responses_lookup_Some).
      rewrite lookup_app_l in Hj by done. congruence.
    + exfalso. rewrite lookup_app_r in Hj by (fold n; lia).
      assert (responses (sync (_fetchers e)) e !! (j - n)%nat = Some None) as Hresp
        by (apply responses_lookup_Some; eauto).
      rewrite Hsync, list_lookup_fmap in Hresp.
      by destruct (from_sync !! (j - n)%nat).
  - injection Hfetch as _ ->.
    apply gather_inr_first in Hsync as (p & -> & Hp & Hbefore). fold n.
    pose proof Hp as (s & Hs & Hnone)%responses_lookup_Some.
    split.
    + exists s. split; [|done].
      by rewrite lookup_app_r, Nat.add_comm, Nat.add_sub by (fold n; lia).
    + intros j s' Hj Hnone'. rewrite decide_True by lia.
      destruct (decide (j < n)%nat) as [Hjn|Hjn]; [by left|]. right.
      destruct (decide (n + p ≤ j)%nat); [done|]. exfalso.
      rewrite lookup_app_r in Hj by (fold n; lia).
      destruct (Hbefore (j - n)%nat ltac:(lia))
        as (rs & (s'' & Hs'' & Hrs)%responses_lookup_Some).
      unfold n in *. congruence.
Qed.

Lemma fetch_exception_precedence_witness :
  ∃ e', fetch (query "foo" all_faulty_engine) = Raised e' (FetchRaised 1)
        ∧ ∃ s, chain (_fetchers all_faulty_engine) !! 1%nat = Some s
               ∧ Source.fetch s [] "foo" = None.
Proof.
  eexists. split; [vm_compute; reflexivity|].
  refine (proj1 (fetch_exception_precedence (query "foo" all_faulty_engine) _ 1 _)).
  vm_compute. reflexivity.
Defined.

(** X6. What [fetch] leaves alone, whether it returns or raises: the trace
    (no [cache_chunk] and no [persist] call is made), the cache record, the
    pending query and the sources; the result objects that existed before
    are all still there, unchanged.  The accumulated list is new in both
    cases: every reference in it is to an object this fetch created, so
    after a fetch that raised the results of the previous fetch are gone
    as well. *)
Theorem fetch_frame (e : Engine) :
  trace (state_of (fetch e)) = trace e
  ∧ _cache (state_of (fetch e)) = _cache e
  ∧ query_string (state_of (fetch e)) = query_string e
  ∧ _fetchers (state_of (fetch e)) = _fetchers e
  ∧ (∃ new, objects (state_of (fetch e)) = objects e ++ new
            ∧ _results (state_of (fetch e))
              = seq (length (objects e)) (length new)).
Proof.
  rewrite fetch_outcome. case_gather e; simpl; split_and!; eauto.
Qed.

(** ** More on the analysis pass: what exactly a run does *)

Lemma new_chunks_sublist (chunks : list Chunk) (seen : gset string) :
  new_chunks seen chunks `sublist_of` chunks.
Proof.
  revert seen. induction chunks as [|c rest IH]; intros seen; simpl; [done|].
  case_decide; [by apply sublist_cons | by apply sublist_skip].
Qed.

Lemma new_chunks_fresh (chunks : list Chunk) (seen : gset string) (c : Chunk) :
  c ∈ new_chunks seen chunks → chunk_id c ∉ seen.
Proof.
  revert seen. induction chunks as [|c' rest IH]; intros seen; simpl.
  - by intros ?%elem_of_nil.
  - case_decide; [apply IH|]. intros [->|Hin]%elem_of_cons; [done|].
    apply IH in Hin. set_solver.
Qed.

Lemma new_chunks_NoDup (chunks : list Chunk) (seen : gset string) :
  NoDup (chunk_id <$> new_chunks seen chunks).
Proof.
  revert seen. induction chunks as [|c rest IH]; intros seen; simpl; [constructor|].
  case_decide; [apply IH|]. rewrite fmap_cons. constructor; [|apply IH].
  intros (c' & Hid & Hin%new_chunks_fresh)%list_elem_of_fmap.
  apply Hin. rewrite <-Hid. by apply elem_of_union_l, elem_of_singleton.
Qed.

Lemma new_chunks_ids (chunks : list Chunk) (seen : gset string) :
  chunk_ids (new_chunks seen chunks) ∪ seen = chunk_ids chunks ∪ seen.
Proof.
  unfold chunk_ids. revert seen. induction chunks as [|c rest IH]; intros seen; simpl;
    [done|].
  assert (∀ (i : string) (X S : gset string), ({[i]} ∪ X) ∪ S = X ∪ ({[i]} ∪ S))
    as Hswap by (intros; set_solver).
  case_decide as Hc.
  - rewrite IH, Hswap. f_equal. symmetry. apply subseteq_union_1_L.
    by apply singleton_subseteq_l.
  - simpl. by rewrite !Hswap, IH.
Qed.

Lemma dispatch_all_cons (n : nat) (c : Chunk) (chunks : list Chunk) :
  dispatch_all n (c :: chunks) = dispatches c 0 n ++ dispatch_all n chunks.
Proof. done. Qed.

Lemma record_ids_nil (e : Engine) : record_ids [] e = e.
Proof.
  unfold record_ids, chunk_ids. simpl. rewrite (left_id_L ∅ (∪)).
  by destruct e as [? ? ? ? [] ? ? ? ?].
Qed.

(** The loop over the chunks, in closed form. *)
Lemma analyze_loop_run (chunks : list Chunk) (e : Engine) :
  match analyze_loop chunks e with
  | Returned e' =>
      e' = set_trace
             (trace e ++ dispatch_all (length (chain (_fetchers e)))
                           (new_chunks (analyzed e) chunks))
             (record_ids (new_chunks (analyzed e) chunks) e)
  | Raised e' x =>
      ∃ before chunk after k,
        new_chunks (analyzed e) chunks = before ++ chunk :: after
        ∧ x = CacheChunkRaised k chunk
        ∧ (k < length (chain (_fetchers e)))%nat
        ∧ e' = set_trace
                 (trace e ++ dispatch_all (length (chain (_fetchers e))) before
                  ++ dispatches chunk 0 (S k))
                 (record_ids before e)
  end.
Proof.
  revert e. induction chunks as [|c rest IH]; intros e; simpl.
  - unfold dispatch_all. simpl. by rewrite record_ids_nil, app_nil_r, set_trace_id.
  - case_decide as Hc; [apply IH|].
    pose proof (add_to_collection_outcome c e) as Hadd.
    destruct (_add_to_collection c e) as [e1|e1 x]; simpl.
    + specialize (IH (mark_analyzed (chunk_id c) e1)). subst e1.
      change (analyzed (mark_analyzed _ _)) with ({[chunk_id c]} ∪ analyzed e) in IH.
      change (_fetchers (mark_analyzed _ _)) with (_fetchers e) in IH.
      set (n := length (chain (_fetchers e))) in *.
      set (seen := {[chunk_id c]} ∪ analyzed e) in *.
      assert (∀ l t,
        set_trace (trace e ++ dispatches c 0 n ++ t)
          (record_ids (c :: l) e)
        = set_trace (trace (mark_analyzed (chunk_id c)
                              (set_trace (trace e ++ dispatches c 0 n) e)) ++ t)
            (record_ids l (mark_analyzed (chunk_id c)
                             (set_trace (trace e ++ dispatches c 0 n) e)))) as Hshape.
      { intros l t. unfold record_ids, chunk_ids, mark_analyzed, analyzed, set_trace,
          set_cache, set_chunks. simpl. rewrite <-app_assoc. do 2 f_equal. set_solver. }
      destruct (analyze_loop rest _) as [e'|e' x].
      * rewrite IH, dispatch_all_cons, <-Hshape. done.
      * destruct IH as (before & chunk & after & k & Hnew & -> & Hk & ->).
        exists (c :: before), chunk, after, k. rewrite Hnew.
        split_and!; try done.
        by rewrite dispatch_all_cons, <-(app_assoc (dispatches c 0 n)), <-Hshape.
    + destruct Hadd as (k & Hk & -> & ->).
      exists [], c, (new_chunks ({[chunk_id c]} ∪ analyzed e) rest), k.
      split_and!; try done. by rewrite record_ids_nil.
Qed.

(** From here on the closed form is used as it stands. *)
Global Arguments new_chunks : simpl never.
Global Arguments chunk_ids : simpl never.
Global Arguments dispatch_all : simpl never.
Global Arguments record_ids : simpl never.

Lemma persist_loop_outcome (sources : list Source.t) (i : nat) (e : Engine) :
  match persist_loop i sources e with
  | Returned e' => e' = set_trace (trace e ++ persists i (length sources)) e
  | Raised e' x =>
      ∃ k, (k < length sources)%nat
           ∧ x = SourcePersistRaised (i + k)
           ∧ e' = set_trace (trace e ++ persists i (S k)) e
  end.
Proof.
  revert i e. induction sources as [|source rest IH]; intros i e; simpl.
  - unfold persists. simpl. by rewrite app_nil_r, set_trace_id.
  - destruct (Source.persist source (trace e)).
    + specialize (IH (S i) (log_event (SourcePersist i) e)).
      destruct (persist_loop (S i) rest _) as [e'|e' x].
      * rewrite IH. unfold log_event, persists. simpl.
        by rewrite set_trace_set_trace, <-app_assoc.
      * destruct IH as (k & Hk & -> & ->). exists (S k).
        split_and!; [lia | f_equal; lia |].
        unfold log_event, persists. simpl. by rewrite set_trace_set_trace, <-app_assoc.
    + exists 0%nat. split_and!; [lia | f_equal; lia | done].
Qed.

(** The whole pass in closed form, outcome by outcome: what was dispatched,
    what was persisted, what is recorded. *)
Lemma create_vector_embeddings_run (e : Engine) :
  let n := length (chain (_fetchers e)) in
  let new := new_chunks (analyzed e) (chunks_to_process (top_files e)) in
  match _create_vector_embeddings e with
  | Returned e' =>
      e' = set_trace (trace e ++ dispatch_all n new ++ CachePersist :: persists 0 n)
             (record_ids new e)
  | Raised e' (CacheChunkRaised k chunk) =>
      ∃ before after,
        new = before ++ chunk :: after ∧ (k < n)%nat
        ∧ e' = set_trace (trace e ++ dispatch_all n before ++ dispatches chunk 0 (S k))
                 (record_ids before e)
  | Raised e' CachePersistRaised =>
      e' = set_trace (trace e ++ dispatch_all n new ++ [CachePersist])
             (record_ids new e)
  | Raised e' (SourcePersistRaised k) =>
      (k < n)%nat
      ∧ e' = set_trace (trace e ++ dispatch_all n new ++ CachePersist :: persists 0 (S k))
               (record_ids new e)
  | Raised e' (FetchRaised _) => False
  end.
Proof.
  intros n new. unfold _create_vector_embeddings.
  pose proof (analyze_loop_run (chunks_to_process (top_files e)) e) as Hloop.
  fold n new in Hloop. clearbody new.
  destruct (analyze_loop _ e) as [e1|e1 x]; simpl.
  - subst e1. unfold persist_cache.
    set (e1 := set_trace (trace e ++ dispatch_all n new) (record_ids new e)).
    destruct (cache_persist e1 (trace e1)); simpl.
    + pose proof (persist_loop_outcome (chain (_fetchers e)) 0 (log_event CachePersist e1))
        as Hpersist.
      change (chain (_fetchers (log_event CachePersist e1))) with (chain (_fetchers e)).
      destruct (persist_loop 0 _ _) as [e2|e2 x].
      * subst e2. unfold e1, log_event. simpl.
        by rewrite !set_trace_set_trace, <-!app_assoc.
      * destruct Hpersist as (k & Hk & -> & ->). split; [done|].
        unfold e1, log_event. simpl. by rewrite !set_trace_set_trace, <-!app_assoc.
    + unfold e1, log_event. simpl. by rewrite set_trace_set_trace, <-app_assoc.
  - destruct Hloop as (before & chunk & after & k & Hnew & -> & Hk & ->). eauto.
Qed.

Lemma elem_of_dispatches (chunk c : Chunk) (i n j : nat) :
  CacheChunk j c ∈ dispatches chunk i n ↔ c = chunk ∧ (i ≤ j < i + n)%nat.
Proof.
  unfold dispatches. rewrite list_elem_of_fmap. split.
  - intros (k & [= -> ->] & Hk%elem_of_seq). done.
  - intros [-> Hj]. exists j. split; [done|]. by apply elem_of_seq.
Qed.

Lemma elem_of_dispatch_all (n j : nat) (c : Chunk) (chunks : list Chunk) :
  CacheChunk j c ∈ dispatch_all n chunks ↔ c ∈ chunks ∧ (j < n)%nat.
Proof.
  induction chunks as [|c' chunks IH].
  - unfold dispatch_all. cbn. split; [by intros ?%elem_of_nil|].
    by intros [?%elem_of_nil _].
  - rewrite dispatch_all_cons, elem_of_app, elem_of_dispatches, IH, elem_of_cons.
    split; [intros [[-> ?]|[? ?]]; split; auto; lia|].
    intros [[->|?] ?]; [left; split; [done | lia] | by right].
Qed.

Lemma chunk_ids_elem (chunks : list Chunk) (id : string) :
  id ∈ chunk_ids chunks ↔ ∃ c, c ∈ chunks ∧ chunk_id c = id.
Proof.
  unfold chunk_ids. rewrite elem_of_list_to_set, list_elem_of_fmap. naive_solver.
Qed.

(** X7. When the analysis returns, [chunks_already_analyzed] is exactly what
    it was before together with the ids of all the chunks of the window. *)
Theorem analysis_records_the_window (w : Walk) (e e1 : Engine) :
  analyze_codebase w e = Returned e1 →
  analyzed e1 = chunk_ids (chunks_to_process (walk_top_files w)) ∪ analyzed e.
Proof.
  unfold analyze_codebase. intros Hrun.
  pose proof (create_vector_embeddings_run (analyze_files w e)) as Hclosed.
  rewrite Hrun in Hclosed. cbv beta iota zeta in Hclosed. subst e1.
  apply (new_chunks_ids (chunks_to_process (walk_top_files w)) (analyzed e)).
Qed.

Lemma analysis_records_the_window_witness :
  ∃ e1, analyze_codebase example_walk healthy_engine = Returned e1
        ∧ analyzed e1 = chunk_ids [chunk1; chunk2] ∪ ∅.
Proof.
  destruct (analyze_codebase example_walk healthy_engine) as [e1|e1 x] eqn:Hrun;
    [|by vm_compute in Hrun].
  exists e1. split; [done|].
  exact (analysis_records_the_window example_walk healthy_engine e1 Hrun).
Defined.

(** X8. What a returning analysis does, in order.  It hands some chunks of
    the window, in window order (file rank, then chunk order), each to
    every source in chain order; these chunks have pairwise different ids,
    none of them recorded before, and every id of the window that was not
    recorded is the id of one of them.  Then it persists the cache record
    once, and then every source once, in chain order. *)
Theorem returning_analysis_trace (w : Walk) (e e1 : Engine) :
  analyze_codebase w e = Returned e1 →
  let n := length (chain (_fetchers e)) in
  ∃ dispatched,
    trace e1 = trace e ++ dispatch_all n dispatched ++ CachePersist :: persists 0 n
    ∧ dispatched `sublist_of` chunks_to_process (walk_top_files w)
    ∧ NoDup (chunk_id <$> dispatched)
    ∧ (∀ c, c ∈ dispatched → chunk_id c ∉ analyzed e)
    ∧ (∀ c, c ∈ chunks_to_process (walk_top_files w) →
            chunk_id c ∈ analyzed e ∨ chunk_id c ∈ chunk_ids dispatched).
Proof.
  intros Hrun n. unfold analyze_codebase in Hrun.
  pose proof (create_vector_embeddings_run (analyze_files w e)) as Hclosed.
  rewrite Hrun in Hclosed. cbv beta iota zeta in Hclosed. subst e1.
  exists (new_chunks (analyzed e) (chunks_to_process (walk_top_files w))).
  split_and!.
  - done.
  - apply new_chunks_sublist.
  - apply new_chunks_NoDup.
  - intros c. apply new_chunks_fresh.
  - intros c Hc.
    assert (chunk_id c ∈ chunk_ids (chunks_to_process (walk_top_files w)) ∪ analyzed e)
      as Hin by (apply elem_of_union_l, chunk_ids_elem; eauto).
    rewrite <-new_chunks_ids in Hin. apply elem_of_union in Hin as [?|?]; auto.
Qed.

Lemma returning_analysis_trace_witness :
  ∃ e1, analyze_codebase example_walk healthy_engine = Returned e1
        ∧ trace e1 = [CacheChunk 0 chunk1; CacheChunk 1 chunk1;
                      CacheChunk 0 chunk2; CacheChunk 1 chunk2;
                      CachePersist; SourcePersist 0; SourcePersist 1].
Proof.
  destruct (analyze_codebase example_walk healthy_engine) as [e1|e1 x] eqn:Hrun;
    [|by vm_compute in Hrun].
  exists e1. split; [done|].
  destruct (returning_analysis_trace example_walk healthy_engine e1 Hrun)
    as (dispatched & _).
  vm_compute in Hrun. by injection Hrun as <-.
Defined.

Lemma elem_of_persists (i n j : nat) (c : Chunk) : CacheChunk j c ∉ persists i n.
Proof. unfold persists. by intros (k & [=] & _)%list_elem_of_fmap. Qed.

Lemma dispatch_all_app (n : nat) (l1 l2 : list Chunk) :
  dispatch_all n (l1 ++ l2) = dispatch_all n l1 ++ dispatch_all n l2.
Proof. unfold dispatch_all. by rewrite fmap_app, concat_app. Qed.

(** The new events of a run and the state it leaves, whatever the outcome:
    some chunks were handed to every source, possibly one more to the first
    sources only, and the ids recorded are those of the former. *)
Lemma analyze_codebase_events (w : Walk) (e : Engine) :
  let n := length (chain (_fetchers e)) in
  ∃ complete partial rest,
    trace (state_of (analyze_codebase w e))
    = trace e ++ dispatch_all n complete ++ partial ++ rest
    ∧ analyzed (state_of (analyze_codebase w e)) = chunk_ids complete ∪ analyzed e
    ∧ (∀ c, c ∈ complete → c ∈ chunks_to_process (walk_top_files w)
                           ∧ chunk_id c ∉ analyzed e)
    ∧ (∀ j c, CacheChunk j c ∈ partial →
              c ∈ chunks_to_process (walk_top_files w)
              ∧ (chunk_id c ∉ analyzed e) ∧ (j < n)%nat)
    ∧ (∀ j c, CacheChunk j c ∉ rest).
Proof.
  intros n. unfold analyze_codebase.
  pose proof (create_vector_embeddings_run (analyze_files w e)) as Hclosed.
  cbv beta zeta in Hclosed.
  change (top_files (analyze_files w e)) with (walk_top_files w) in Hclosed.
  change (analyzed (analyze_files w e)) with (analyzed e) in Hclosed.
  change (_fetchers (analyze_files w e)) with (_fetchers e) in Hclosed.
  change (trace (analyze_files w e)) with (trace e) in Hclosed.
  fold n in Hclosed.
  set (window := chunks_to_process (walk_top_files w)) in *.
  assert (∀ c, c ∈ new_chunks (analyzed e) window →
               c ∈ window ∧ chunk_id c ∉ analyzed e) as Hnew.
  { intros c Hc. split; [|by eapply new_chunks_fresh].
    by apply (sublist_subseteq _ _ (new_chunks_sublist window (analyzed e))). }
  destruct (_create_vector_embeddings _) as [e1|e1 [k chunk| |k|k]].
  - subst e1. exists (new_chunks (analyzed e) window), [], (CachePersist :: persists 0 n).
    split_and!; try done.
    + by intros ?? ?%elem_of_nil.
    + intros j c [[=]|?%elem_of_persists]%elem_of_cons. done.
  - destruct Hclosed as (before & after & Hsplit & Hk & ->).
    exists before, (dispatches chunk 0 (S k)), []. cbn [state_of].
    split_and!.
    + by rewrite app_nil_r.
    + done.
    + intros c Hc. apply Hnew. rewrite Hsplit. apply elem_of_app. by left.
    + intros j c [-> Hj]%elem_of_dispatches.
      destruct (Hnew chunk) as [? ?]; [rewrite Hsplit; set_solver|].
      split_and!; [done | done | lia].
    + by intros ?? ?%elem_of_nil.
  - subst e1. exists (new_chunks (analyzed e) window), [], [CachePersist].
    split_and!; try done.
    + by intros ?? ?%elem_of_nil.
    + by intros j c [[=]|?%elem_of_nil]%elem_of_cons.
  - destruct Hclosed as [Hk ->].
    exists (new_chunks (analyzed e) window), [], (CachePersist :: persists 0 (S k)).
    split_and!; try done.
    + by intros ?? ?%elem_of_nil.
    + intros j c [[=]|?%elem_of_persists]%elem_of_cons. done.
  - done.
Qed.

(** X9. An analysis, whether it returns or raises, never hands a source a
    chunk whose id is already in [chunks_already_analyzed]: every
    [cache_chunk] call of the run is for a chunk of the window whose id was
    not recorded when the run began, on a source of the chain. *)
Theorem analysis_dispatches_only_new_chunks (w : Walk) (e : Engine)
    (new : list event) (j : nat) (c : Chunk) :
  trace (state_of (analyze_codebase w e)) = trace e ++ new →
  CacheChunk j c ∈ new →
  (chunk_id c ∉ analyzed e)
  ∧ c ∈ chunks_to_process (walk_top_files w)
  ∧ (j < length (chain (_fetchers e)))%nat.
Proof.
  destruct (analyze_codebase_events w e)
    as (complete & partial & rest & -> & _ & Hcomplete & Hpartial & Hrest).
  intros <-%app_inv_head [Hin|[Hin|Hin]%elem_of_app]%elem_of_app.
  - apply elem_of_dispatch_all in Hin as [[? ?]%Hcomplete ?]. done.
  - apply Hpartial in Hin as (? & ? & ?). done.
  - by apply Hrest in Hin.
Qed.

Lemma analysis_dispatches_only_new_chunks_witness :
  ∃ e1, analyze_codebase example_walk faulty_sync_engine
        = Raised e1 (CacheChunkRaised 1 chunk1)
        ∧ (chunk_id chunk1 ∉ analyzed faulty_sync_engine)
        ∧ chunk1 ∈ chunks_to_process (walk_top_files example_walk).
Proof.
  eexists. split; [vm_compute; reflexivity|].
  destruct (analysis_dispatches_only_new_chunks example_walk faulty_sync_engine
              [CacheChunk 0 chunk1; CacheChunk 1 chunk1] 0 chunk1)
    as (Hid & Hin & _); [vm_compute; reflexivity | left | done].
Defined.

(** X10. An id enters [chunks_already_analyzed] only after every source was
    given a chunk with that id: whatever the outcome of the run, each id
    the run has recorded is the id of a chunk of the window that the run
    handed to every source of the chain. *)
Theorem recorded_chunks_reached_every_source (w : Walk) (e : Engine)
    (new : list event) (id : string) :
  trace (state_of (analyze_codebase w e)) = trace e ++ new →
  id ∈ analyzed (state_of (analyze_codebase w e)) →
  id ∉ analyzed e →
  ∃ c, chunk_id c = id
       ∧ c ∈ chunks_to_process (walk_top_files w)
       ∧ ∀ j, (j < length (chain (_fetchers e)))%nat → CacheChunk j c ∈ new.
Proof.
  destruct (analyze_codebase_events w e)
    as (complete & partial & rest & -> & -> & Hcomplete & _).
  intros <-%app_inv_head [Hin|Hin]%elem_of_union Hnot; [|done].
  apply chunk_ids_elem in Hin as (c & Hc & <-). exists c.
  split_and!; [done | by apply Hcomplete |].
  intros j Hj. apply elem_of_app. left. by apply elem_of_dispatch_all.
Qed.

Lemma recorded_chunks_reached_every_source_witness :
  ∃ c, chunk_id c = "c1"
       ∧ ∀ j, (j < 2)%nat →
              CacheChunk j c ∈ [CacheChunk 0 chunk1; CacheChunk 1 chunk1;
                                CacheChunk 0 chunk2; CacheChunk 1 chunk2;
                                CachePersist; SourcePersist 0; SourcePersist 1].
Proof.
  destruct (recorded_chunks_reached_every_source example_walk healthy_engine
              [CacheChunk 0 chunk1; CacheChunk 1 chunk1;
               CacheChunk 0 chunk2; CacheChunk 1 chunk2;
               CachePersist; SourcePersist 0; SourcePersist 1] "c1")
    as (c & Hid & _ & Hall).
  - vm_compute. reflexivity.
  - vm_compute. reflexivity.
  - vm_compute. intros H. discriminate H.
  - exists c. split; [done | exact Hall].
Defined.





(** ** More on the project identity *)

Lemma has_char_app (c : ascii) (s t : string) :
  has_char c (s +:+ t) = has_char c s || has_char c t.
Proof. induction s as [|a s IH]; simpl; [done|]. by case_decide. Qed.

Lemma pretty_N_char_not_nl (x : N) : pretty_N_char x ≠ nl.
Proof. unfold pretty_N_char. by repeat case_match. Qed.

Lemma pretty_N_go_no_nl (x : N) (s : string) :
  has_char nl s = false → has_char nl (pretty_N_go x s) = false.
Proof.
  revert s. induction (N.lt_wf_0 x) as [x _ IH]; intros s Hs.
  assert (x = 0 ∨ 0 < x)%N as [->|Hpos] by lia.
  - by rewrite pretty_N_go_0.
  - rewrite pretty_N_go_step by done. apply IH; [by apply N.div_lt|].
    simpl. by rewrite decide_False by apply pretty_N_char_not_nl.
Qed.

Lemma pretty_N_no_nl (x : N) : has_char nl (pretty x) = false.
Proof.
  unfold pretty, pretty_N. case_decide; [done|]. by apply pretty_N_go_no_nl.
Qed.

(** The decimal rendering of an integer has no line break. *)
Lemma pretty_Z_no_nl (v : Z) : has_char nl (pretty v) = false.
Proof.
  unfold pretty, pretty_Z. destruct v as [|p|p]; [done| |].
  - apply (pretty_N_no_nl (N.pos p)).
  - rewrite has_char_app. simpl. apply (pretty_N_no_nl (N.pos p)).
Qed.

(** Two texts that agree are cut at their first [c] in the same way. *)
Lemma split_at_char (c : ascii) (s1 s2 t1 t2 : string) :
  has_char c s1 = false → has_char c s2 = false →
  s1 +:+ String c t1 = s2 +:+ String c t2 → s1 = s2 ∧ t1 = t2.
Proof.
  revert s2. induction s1 as [|a s1 IH]; intros [|b s2]; simpl.
  - by intros _ _ [= ->].
  - intros _ Hb [= <- _]. by rewrite decide_True in Hb.
  - intros Ha _ [= -> _]. by rewrite decide_True in Ha.
  - case_decide; [done|]. case_decide; [done|].
    intros H1 H2 [= -> Heq]. by destruct (IH _ H1 H2 Heq) as [-> ->].
Qed.

(** The hashed text determines the version and the normalized path. *)
Lemma project_text_inj (v1 v2 : Z) (p1 p2 : string) :
  project_text v1 p1 = project_text v2 p2 → v1 = v2 ∧ p1 = p2.
Proof.
  unfold project_text. intros Heq. do 2 apply String.app_inj in Heq.
  apply (split_at_char nl) in Heq as [Hv Hrest];
    [|apply pretty_Z_no_nl|apply pretty_Z_no_nl].
  split; [by apply pretty_Z_inj in Hv|].
  apply String.app_inj in Hrest. by apply string_app_inv_tail in Hrest.
Qed.

(** X12. One project, one cache: two engines get the same project hash, the
    same cache folder, the same cache file exactly when they have the same
    format version and their paths normalize to the same path, SHA-256 not
    colliding on the two texts hashed; so two different repositories, like
    two different versions, never share a cache. *)
Theorem project_identity_separates (env : Env) (path1 path2 : string) (v1 v2 : Z) :
  collision_free (project_text v1 (resolve env path1))
                 (project_text v2 (resolve env path2)) →
  (_get_project_hash env v1 path1 = _get_project_hash env v2 path2
   ↔ v1 = v2 ∧ resolve env path1 = resolve env path2)
  ∧ (_get_cache_folder env v1 path1 = _get_cache_folder env v2 path2
     ↔ v1 = v2 ∧ resolve env path1 = resolve env path2)
  ∧ (cache_file env v1 path1 = cache_file env v2 path2
     ↔ v1 = v2 ∧ resolve env path1 = resolve env path2).
Proof.
  intros Hfree. unfold cache_file, _get_cache_folder, _get_project_hash.
  assert (SHA256.hexdigest (project_text v1 (resolve env path1))
          = SHA256.hexdigest (project_text v2 (resolve env path2))
          ↔ v1 = v2 ∧ resolve env path1 = resolve env path2) as Hhash.
  { split; [|by intros [-> ->]]. by intros Hdigest%Hfree%project_text_inj. }
  split_and!; [done | |]; (split; [|by intros [-> ->]]).
  - by intros ?%path_join_inj%Hhash.
  - unfold path_join. intros Heq%app_inj_tail. destruct Heq as [Heq _].
    by apply app_inj_tail in Heq as [_ ?%Hhash].
Qed.

Lemma project_identity_separates_witness :
  collision_free (project_text 15 "/home/user/repo") (project_text 15 "/home/user/other")
  ∧ cache_file example_env 15 "/home/user/repo"
    ≠ cache_file example_env 15 "/home/user/other".
Proof.
  assert (collision_free (project_text 15 "/home/user/repo")
                         (project_text 15 "/home/user/other")) as Hfree.
  { intros Hdigest. vm_compute in Hdigest. discriminate. }
  split; [exact Hfree|]. intros Heq.
  apply (project_identity_separates example_env "/home/user/repo" "/home/user/other"
           15 15 Hfree) in Heq as [_ Heq]. discriminate.
Defined.

(** X14. Tests and production never share a cache: with [PYTEST_CURRENT_TEST]
    in the environment the cache root is that of the application
    [codector-pytest], without it that of [codector]; when these two
    directories differ, no cache file of a run under pytest is a cache file
    of a run outside it, whatever the paths and the versions. *)
Theorem pytest_cache_is_separate (env_test env : Env) (path1 path2 : string)
    (v1 v2 : Z) :
  "PYTEST_CURRENT_TEST" ∈ environ env_test →
  "PYTEST_CURRENT_TEST" ∉ environ env →
  user_cache_dir env_test "codector-pytest" ≠ user_cache_dir env "codector" →
  _get_cache_root env_test ≠ _get_cache_root env
  ∧ _get_cache_folder env_test v1 path1 ≠ _get_cache_folder env v2 path2
  ∧ cache_file env_test v1 path1 ≠ cache_file env v2 path2.
Proof.
  intros Htest Hprod Hdirs.
  assert (_get_cache_root env_test ≠ _get_cache_root env) as Hroot.
  { unfold _get_cache_root. by rewrite decide_True, decide_False by done. }
  unfold cache_file, _get_cache_folder, path_join.
  split_and!; [done | |].
  - by intros [? _]%app_inj_tail.
  - intros [Heq _]%app_inj_tail. by apply app_inj_tail in Heq as [? _].
Qed.

Lemma pytest_cache_is_separate_witness :
  cache_file pytest_env 15 "/home/user/repo" ≠ cache_file example_env 15 "/home/user/repo".
Proof.
  assert ("PYTEST_CURRENT_TEST" ∈ environ pytest_env) as Htest.
  { change ("PYTEST_CURRENT_TEST" ∈ ({[ "PYTEST_CURRENT_TEST" ]} : gset string)).
    by apply elem_of_singleton. }
  assert ("PYTEST_CURRENT_TEST" ∉ environ example_env) as Hprod.
  { change ("PYTEST_CURRENT_TEST" ∉ (∅ : gset string)). apply not_elem_of_empty. }
  assert (user_cache_dir pytest_env "codector-pytest"
          ≠ user_cache_dir example_env "codector") as Hdirs
    by (simpl; intros [=]).
  exact (proj2 (proj2 (pytest_cache_is_separate pytest_env example_env
                         "/home/user/repo" "/home/user/repo" 15 15 Htest Hprod Hdirs))).
Defined.

(** ** The shape of the project hash *)

Lemma string_length_app (s t : string) :
  String.length (s +:+ t) = (String.length s + String.length t)%nat.
Proof. induction s as [|a s IH]; simpl; [done | by rewrite IH]. Qed.

Lemma all_chars_app (P : ascii → bool) (s t : string) :
  all_chars P (s +:+ t) = all_chars P s && all_chars P t.
Proof. induction s as [|a s IH]; simpl; [done|]. by rewrite IH, andb_assoc. Qed.

Lemma hex_digit_is_hex (x : Z) :
  0 ≤ x < 16 → is_hex_digit (SHA256.hex_digit x) = true.
Proof.
  intros Hx.
  assert (Forall (λ n, is_hex_digit (SHA256.hex_digit (Z.of_nat n)) = true) (seq 0 16))
    as Hall by (repeat constructor).
  rewrite Forall_forall in Hall. specialize (Hall (Z.to_nat x)).
  rewrite Z2Nat.id in Hall by lia. apply Hall, elem_of_seq. lia.
Qed.

Lemma hex_shape (n : nat) (x : Z) :
  String.length (SHA256.hex n x) = n
  ∧ all_chars is_hex_digit (SHA256.hex n x) = true.
Proof.
  induction n as [|n [IHlen IHhex]]; [done|]. cbn [SHA256.hex String.length all_chars].
  rewrite IHlen, IHhex, andb_true_r. split; [done|].
  apply hex_digit_is_hex. change 15 with (Z.ones 4).
  rewrite Z.land_ones by lia. apply Z.mod_pos_bound. lia.
Qed.

Lemma round_length (v : list Z) (kw : Z * Z) :
  length (SHA256.round v kw) = length v.
Proof.
  unfold SHA256.round.
  destruct v as [|a [|b [|c [|d [|e [|f [|g [|h [|? ?]]]]]]]]]; reflexivity.
Qed.

Lemma compress_length (hash block : list Z) :
  length (SHA256.compress hash block) = length hash.
Proof.
  unfold SHA256.compress. rewrite length_zip_with.
  set (kws := zip _ _). clearbody kws.
  assert (∀ v, length (foldl SHA256.round v kws) = length v) as ->; [|lia].
  induction kws as [|kw kws IH]; intros v; simpl; [done|].
  by rewrite IH, round_length.
Qed.

Lemma digest_words_length (msg : list Z) :
  length (SHA256.digest_words msg) = 8%nat.
Proof.
  unfold SHA256.digest_words. generalize (SHA256.pieces (length (SHA256.pad msg)) 64
                                            (SHA256.pad msg)).
  intros blocks.
  assert (∀ hash, length (foldl SHA256.compress hash blocks) = length hash) as ->;
    [|reflexivity].
  induction blocks as [|b blocks IH]; intros hash; simpl; [done|].
  by rewrite IH, compress_length.
Qed.

Lemma hexdigest_shape (s : string) :
  String.length (SHA256.hexdigest s) = 64%nat
  ∧ all_chars is_hex_digit (SHA256.hexdigest s) = true.
Proof.
  unfold SHA256.hexdigest.
  pose proof (digest_words_length (SHA256.bytes_of_string s)) as Hlen.
  revert Hlen. generalize (SHA256.digest_words (SHA256.bytes_of_string s)).
  intros ws Hlen.
  assert (String.length (foldr (λ w acc, SHA256.hex 8 w +:+ acc) "" ws)
          = (8 * length ws)%nat
          ∧ all_chars is_hex_digit (foldr (λ w acc, SHA256.hex 8 w +:+ acc) "" ws)
            = true) as [Hl Hc].
  { clear Hlen. induction ws as [|w ws [IHl IHc]]; [done|]. cbn [foldr].
    rewrite string_length_app, all_chars_app, IHl, IHc.
    destruct (hex_shape 8 w) as [-> ->]. split; [simpl; lia | done]. }
  split; [lia | done].
Qed.

(** X13. The project hash is always 64 characters long and made of the
    characters [0-9a-f] only, whatever the path and the version: it has no
    separator in it, is not empty and is not a dot name, so the cache
    folder is a folder of that name directly under the cache root. *)
Theorem project_hash_shape (env : Env) (version : Z) (path : string) :
  String.length (_get_project_hash env version path) = 64%nat
  ∧ all_chars is_hex_digit (_get_project_hash env version path) = true
  ∧ has_char "/" (_get_project_hash env version path) = false
  ∧ _get_cache_folder env version path
    = _get_cache_root env ++ [_get_project_hash env version path].
Proof.
  unfold _get_cache_folder, _get_project_hash.
  destruct (hexdigest_shape (project_text version (resolve env path))) as [Hlen Hhex].
  split_and!; [done | done | | done].
  revert Hhex. generalize (SHA256.hexdigest (project_text version (resolve env path))).
  intros s. induction s as [|a s IH]; [done|]. cbn [all_chars has_char].
  intros [Ha Hs]%andb_true_iff. rewrite IH by done.
  case_decide as Heq; [|done]. subst a. discriminate Ha.
Qed.
